(** * ChatLink: the chat session controller and the visitor counter

  A shallow embedding of [src/pages/Chat.tsx] and
  [src/components/VisitorCounter.tsx].  React state is a record, the
  calls a handler makes on its collaborators ([webRTCService], [toast],
  [console], [setTimeout], the router) are appended to a trace, and the
  promises a handler awaits are kept as pending continuations that a
  later event resumes. *)

From stdpp Require Import base strings pretty gmap list.
From Stdlib Require Import ZArith Lia Ascii.

Local Open Scope string_scope.

(** ** The JavaScript values the two components compute with *)

Module JS.

(** [ToBoolean] on a [string | null]: [null] and the empty string are
    falsy. *)
Definition truthy (v : option string) : bool :=
  match v with
  | None => false
  | Some s => negb (String.eqb s "")
  end.

(** A JavaScript number as far as the counter uses one: [NaN] or an
    integer.  Numbers are IEEE doubles in the source; integer addition
    is exact as long as operands and result stay within
    [MAX_SAFE_INTEGER], and the statements about counts are made for
    that range. *)
Inductive number : Type :=
| NaN
| Num (z : Z).

Definition MAX_SAFE_INTEGER : Z := 2 ^ 53 - 1.

Definition add (a b : number) : number :=
  match a, b with
  | Num x, Num y => Num (x + y)
  | _, _ => NaN
  end.

(** [a !== b] on numbers: [NaN] differs from everything. *)
Definition strict_ne (a b : number) : bool :=
  match a, b with
  | Num x, Num y => negb (x =? y)%Z
  | _, _ => true
  end.

(** [Number.prototype.toString] on [NaN] and on integers. *)
Definition toString (n : number) : string :=
  match n with
  | NaN => "NaN"
  | Num z => pretty z
  end.

(** A [string] holds the UTF-8 encoding of the JavaScript string.

    White space that [parseInt] skips ([WhiteSpace] and [LineTerminator]
    of the language): the one-byte part, TAB, LF, VT, FF, CR, SP. *)
Definition is_whitespace (c : ascii) : bool :=
  let n := nat_of_ascii c in
  (Nat.leb 9 n && Nat.leb n 13) || Nat.eqb n 32.

(** The two-byte part: U+00A0 (no-break space), encoded C2 A0. *)
Definition is_whitespace2 (c1 c2 : ascii) : bool :=
  Nat.eqb (nat_of_ascii c1) 194 && Nat.eqb (nat_of_ascii c2) 160.

(** The three-byte part: U+1680 (E1 9A 80), U+2000 to U+200A (E2 80 80 to
    E2 80 8A), U+2028 and U+2029 (E2 80 A8, E2 80 A9), U+202F
    (E2 80 AF), U+205F (E2 81 9F), U+3000 (E3 80 80) and U+FEFF
    (EF BB BF). *)
Definition is_whitespace3 (c1 c2 c3 : ascii) : bool :=
  let n1 := nat_of_ascii c1 in
  let n2 := nat_of_ascii c2 in
  let n3 := nat_of_ascii c3 in
  (Nat.eqb n1 225 && Nat.eqb n2 154 && Nat.eqb n3 128)
  || (Nat.eqb n1 226 && Nat.eqb n2 128
      && ((Nat.leb 128 n3 && Nat.leb n3 138)
          || Nat.eqb n3 168 || Nat.eqb n3 169 || Nat.eqb n3 175))
  || (Nat.eqb n1 226 && Nat.eqb n2 129 && Nat.eqb n3 159)
  || (Nat.eqb n1 227 && Nat.eqb n2 128 && Nat.eqb n3 128)
  || (Nat.eqb n1 239 && Nat.eqb n2 187 && Nat.eqb n3 191).

Fixpoint trim_start (s : string) : string :=
  match s with
  | String c1 r1 =>
      if is_whitespace c1 then trim_start r1
      else
        match r1 with
        | String c2 r2 =>
            if is_whitespace2 c1 c2 then trim_start r2
            else
              match r2 with
              | String c3 r3 =>
                  if is_whitespace3 c1 c2 c3 then trim_start r3 else s
              | EmptyString => s
              end
        | EmptyString => s
        end
  | EmptyString => s
  end.

Definition digit_value (c : ascii) : option Z :=
  let n := nat_of_ascii c in
  if Nat.leb 48 n && Nat.leb n 57 then Some (Z.of_nat (n - 48)) else None.

(** The value of the longest prefix of decimal digits. *)
Fixpoint parse_digits (acc : Z) (s : string) : Z :=
  match s with
  | String c r =>
      match digit_value c with
      | Some d => parse_digits (10 * acc + d) r
      | None => acc
      end
  | EmptyString => acc
  end.

Definition starts_with_digit (s : string) : bool :=
  match s with
  | String c _ => bool_decide (is_Some (digit_value c))
  | EmptyString => false
  end.

(** [parseInt(s, 10)]: skip leading white space, read an optional sign,
    then the longest run of digits; [NaN] when there is no digit. *)
Definition parseInt10 (s : string) : number :=
  let s1 := trim_start s in
  let '(sign, s2) :=
    match s1 with
    | String c r =>
        if Ascii.eqb c "-" then ((-1)%Z, r)
        else if Ascii.eqb c "+" then (1%Z, r)
        else (1%Z, s1)
    | EmptyString => (1%Z, s1)
    end in
  if starts_with_digit s2 then Num (sign * parse_digits 0 s2) else NaN.

End JS.

(** ** [VisitorCounter.tsx] *)

Module VisitorCounter.
Import JS.

(** The two Web Storage areas the component touches; [getItem] of an
    absent key is [null]. *)
Record Browser : Type := mkBrowser {
  localStorage : gmap string string;
  sessionStorage : gmap string string
}.

(** [storedCount ? parseInt(storedCount, 10) : 0] *)
Definition currentCount (ls : gmap string string) : number :=
  let storedCount := ls !! "visitor-count" in
  if truthy storedCount then parseInt10 (default "" storedCount) else Num 0.

(** [sessionStorage.getItem('counted-visit')] is truthy. *)
Definition counted (ss : gmap string string) : bool :=
  truthy (ss !! "counted-visit").

(** The effect of [useEffect(..., [])]: the storage afterwards and the
    value passed to [setVisitorCount]. *)
Definition mount (b : Browser) : Browser * number :=
  let currentCount := currentCount (localStorage b) in
  if negb (counted (sessionStorage b)) then
    let newCount := add currentCount (Num 1) in
    ({| localStorage :=
          <["visitor-count" := toString newCount]> (localStorage b);
        sessionStorage :=
          <["counted-visit" := "true"]> (sessionStorage b) |},
     newCount)
  else (b, currentCount).

(** [{visitorCount} visitor{visitorCount !== 1 ? 's' : ''}] *)
Definition badge (visitorCount : number) : string :=
  toString visitorCount +:+ " visitor" +:+
  (if strict_ne visitorCount (Num 1) then "s" else "").

(** [k] mounts one after the other in the same browser: the final
    storage and the counts displayed, first mount first. *)
Fixpoint mounts (k : nat) (b : Browser) : Browser * list number :=
  match k with
  | O => (b, [])
  | S k' =>
      let '(b1, shown) := mount b in
      let '(b2, rest) := mounts k' b1 in
      (b2, shown :: rest)
  end.

(** A new browsing session: session storage starts empty, local storage
    persists. *)
Definition new_session (b : Browser) : Browser :=
  {| localStorage := localStorage b; sessionStorage := ∅ |}.

(** A browsing session of its own in which the component mounts
    [S more] times: the storage at its end and the counts shown. *)
Definition visit (more : nat) (b : Browser) : Browser * list number :=
  mounts (S more) (new_session b).

(** One browsing session after the other; each entry is the number of
    mounts the session has after its first. *)
Fixpoint visits (sessions : list nat) (b : Browser) : Browser :=
  match sessions with
  | [] => b
  | more :: rest => visits rest (visit more b).1
  end.

End VisitorCounter.

(** ** [Chat.tsx] *)

Module Chat.
Import JS.

(** *** Data *)

(** A [MediaStream] is an opaque handle for the component; the only
    thing it reads is [stream.id]. *)
Record MediaStream : Type := mkStream { stream_id : string }.

Inductive Sender : Type := me | stranger.

(** [Message] of [ChatBox]: [{ id, sender, text, timestamp }].  An id is
    the position of its draw in the sequence of [uuidv4()] results, which
    the uuid package keeps distinct; a timestamp is the clock reading of
    [new Date()]. *)
Record Message : Type := mkMessage {
  msg_id : nat;
  msg_sender : Sender;
  msg_text : string;
  msg_timestamp : Z
}.

(** What travels over the data channel: [{ type, text }]. *)
Record Payload : Type := mkPayload {
  data_type : string;
  data_text : string
}.

(** The nine [useState] cells of the component. *)
Record State : Type := mkState {
  localStream : option MediaStream;
  remoteStream : option MediaStream;
  currentPeerId : option string;
  isMuted : bool;
  isVideoEnabled : bool;
  isChatOpen : bool;
  messages : list Message;
  connecting : bool;
  connectionStatus : string
}.

Definition initialState : State :=
  {| localStream := None; remoteStream := None; currentPeerId := None;
     isMuted := false; isVideoEnabled := true; isChatOpen := false;
     messages := []; connecting := false;
     connectionStatus := "Connecting..." |}.

(** An instance of the [findNewPeer] callback.
    [useCallback(..., [currentPeerId])] makes a new instance when
    [currentPeerId] has changed; an instance reads the [currentPeerId]
    of the render that made it, and the [findNewPeer] it hands to
    [setTimeout] is that same instance. *)
Record Callback : Type := mkCallback { closed_currentPeerId : option string }.

Inductive ToastVariant : Type := default_variant | destructive.

(** The calls the component makes on its collaborators. *)
Inductive Call : Type :=
| GetLocalStream
| ConnectToRandomUser
| GetRemoteStream (peerId : string)
| DisconnectFromPeer (peerId : string)
| SendMessage (peerId : string) (data : Payload)
| ToggleAudio (enabled : bool)
| ToggleVideo (enabled : bool)
| Cleanup
| SubscribeMessage
| SubscribeStream
| SubscribeConnectionState
| UnsubscribeMessage
| UnsubscribeStream
| UnsubscribeConnectionState
| Toast (title description : string) (variant : ToastVariant)
| ConsoleLog (args : list string)
| ConsoleError (args : list string)
| SetTimeout (handler : Callback) (delay : Z)
| Navigate (to : string)
| AuthLogout.

(** The component together with what is outstanding around it. *)
Record World : Type := mkWorld {
  state : State;                     (* React state as of the last render *)
  calls : list Call;                 (* calls made so far, oldest first *)
  localStreamPending : bool;         (* [getLocalStream()] not settled yet *)
  peerRequests : gmap nat Callback;  (* [connectToRandomUser()] promises not
                                        settled yet, each with the instance
                                        of [findNewPeer] that awaits it *)
  timers : gmap nat Callback;        (* [setTimeout] handlers not run yet *)
  nextRequest : nat;
  nextTimer : nat;
  nextUuid : nat;
  mounted : bool
}.

(** *** Handlers as state transformers *)

Definition M (A : Type) : Type := World → A * World.

#[export] Instance M_ret : MRet M := λ A a w, (a, w).
#[export] Instance M_bind : MBind M :=
  λ A B f c w, let '(a, w1) := c w in f a w1.

Definition exec {A} (c : M A) (w : World) : World := (c w).2.

Definition skip : M unit := mret tt.

Definition getState : M State := λ w, (state w, w).

Definition setState (f : State → State) : M unit := λ w,
  (tt, mkWorld (f (state w)) (calls w) (localStreamPending w)
         (peerRequests w) (timers w) (nextRequest w) (nextTimer w)
         (nextUuid w) (mounted w)).

Definition call (c : Call) : M unit := λ w,
  (tt, mkWorld (state w) (calls w ++ [c]) (localStreamPending w)
         (peerRequests w) (timers w) (nextRequest w) (nextTimer w)
         (nextUuid w) (mounted w)).

Definition setLocalStreamPending (b : bool) : M unit := λ w,
  (tt, mkWorld (state w) (calls w) b (peerRequests w) (timers w)
         (nextRequest w) (nextTimer w) (nextUuid w) (mounted w)).

Definition setMounted (b : bool) : M unit := λ w,
  (tt, mkWorld (state w) (calls w) (localStreamPending w) (peerRequests w)
         (timers w) (nextRequest w) (nextTimer w) (nextUuid w) b).

(** [uuidv4()] *)
Definition uuidv4 : M nat := λ w,
  (nextUuid w,
   mkWorld (state w) (calls w) (localStreamPending w) (peerRequests w)
     (timers w) (nextRequest w) (nextTimer w) (S (nextUuid w)) (mounted w)).

(** [await webRTCService.connectToRandomUser()] inside instance [self]:
    the call is made and [self] is parked until the promise settles. *)
Definition awaitConnectToRandomUser (self : Callback) : M unit := λ w,
  (tt, mkWorld (state w) (calls w ++ [ConnectToRandomUser])
         (localStreamPending w)
         (<[nextRequest w := self]> (peerRequests w)) (timers w)
         (S (nextRequest w)) (nextTimer w) (nextUuid w) (mounted w)).

Definition settleRequest (rid : nat) : M unit := λ w,
  (tt, mkWorld (state w) (calls w) (localStreamPending w)
         (delete rid (peerRequests w)) (timers w)
         (nextRequest w) (nextTimer w) (nextUuid w) (mounted w)).

(** [setTimeout(handler, delay)] *)
Definition setTimeout (handler : Callback) (delay : Z) : M unit := λ w,
  (tt, mkWorld (state w) (calls w ++ [SetTimeout handler delay])
         (localStreamPending w) (peerRequests w)
         (<[nextTimer w := handler]> (timers w))
         (nextRequest w) (S (nextTimer w)) (nextUuid w) (mounted w)).

Definition clearTimer (tid : nat) : M unit := λ w,
  (tt, mkWorld (state w) (calls w) (localStreamPending w)
         (peerRequests w) (delete tid (timers w))
         (nextRequest w) (nextTimer w) (nextUuid w) (mounted w)).

(** The [useState] setters. *)
Definition setLocalStream (v : option MediaStream) : M unit :=
  setState (λ s, mkState v (remoteStream s) (currentPeerId s) (isMuted s)
    (isVideoEnabled s) (isChatOpen s) (messages s) (connecting s)
    (connectionStatus s)).
Definition setRemoteStream (v : option MediaStream) : M unit :=
  setState (λ s, mkState (localStream s) v (currentPeerId s) (isMuted s)
    (isVideoEnabled s) (isChatOpen s) (messages s) (connecting s)
    (connectionStatus s)).
Definition setCurrentPeerId (v : option string) : M unit :=
  setState (λ s, mkState (localStream s) (remoteStream s) v (isMuted s)
    (isVideoEnabled s) (isChatOpen s) (messages s) (connecting s)
    (connectionStatus s)).
Definition setIsMuted (v : bool) : M unit :=
  setState (λ s, mkState (localStream s) (remoteStream s) (currentPeerId s) v
    (isVideoEnabled s) (isChatOpen s) (messages s) (connecting s)
    (connectionStatus s)).
Definition setIsVideoEnabled (v : bool) : M unit :=
  setState (λ s, mkState (localStream s) (remoteStream s) (currentPeerId s)
    (isMuted s) v (isChatOpen s) (messages s) (connecting s)
    (connectionStatus s)).
Definition setIsChatOpen (v : bool) : M unit :=
  setState (λ s, mkState (localStream s) (remoteStream s) (currentPeerId s)
    (isMuted s) (isVideoEnabled s) v (messages s) (connecting s)
    (connectionStatus s)).
(** [setMessages] takes an updater ([prev => ...]); [setMessages([])] is
    the constant updater. *)
Definition setMessages (f : list Message → list Message) : M unit :=
  setState (λ s, mkState (localStream s) (remoteStream s) (currentPeerId s)
    (isMuted s) (isVideoEnabled s) (isChatOpen s) (f (messages s))
    (connecting s) (connectionStatus s)).
Definition setConnecting (v : bool) : M unit :=
  setState (λ s, mkState (localStream s) (remoteStream s) (currentPeerId s)
    (isMuted s) (isVideoEnabled s) (isChatOpen s) (messages s) v
    (connectionStatus s)).
Definition setConnectionStatus (v : string) : M unit :=
  setState (λ s, mkState (localStream s) (remoteStream s) (currentPeerId s)
    (isMuted s) (isVideoEnabled s) (isChatOpen s) (messages s)
    (connecting s) v).

(** *** [findNewPeer] *)

(** From the call up to the [await]. *)
Definition findNewPeer (self : Callback) : M unit :=
  (if truthy (closed_currentPeerId self)
   then call (DisconnectFromPeer (default "" (closed_currentPeerId self)))
   else skip);;
  setRemoteStream None;;
  setCurrentPeerId None;;
  setMessages (λ _, []);;
  setConnecting true;;
  setConnectionStatus "Looking for a partner...";;
  awaitConnectToRandomUser self.

(** The rest of the [try] block, run when the promise is fulfilled with
    [peerId]; [remote] is what [getRemoteStream(peerId)] returns then. *)
Definition findNewPeer_fulfilled (self : Callback) (peerId : string)
    (remote : option MediaStream) : M unit :=
  setCurrentPeerId (Some peerId);;
  setConnectionStatus "Establishing connection...";;
  call (GetRemoteStream peerId);;
  match remote with
  | Some stream => setRemoteStream (Some stream);; setConnecting false
  | None => skip
  end.

(** The [catch] block, run when the promise is rejected. *)
Definition findNewPeer_rejected (self : Callback) (error : string) : M unit :=
  call (ConsoleError ["Error connecting to peer:"; error]);;
  setConnectionStatus "Connection failed. Retrying...";;
  setTimeout self 3000.

(** *** The mount effect *)

(** [init] up to its [await]. *)
Definition init : M unit :=
  call GetLocalStream;;
  setLocalStreamPending true.

(** The effect runs in the first render, where [currentPeerId] is
    [null]: that is the instance of [findNewPeer] [init] calls. *)
Definition init_fulfilled (stream : MediaStream) : M unit :=
  setLocalStream (Some stream);;
  call (ConsoleLog ["Local stream obtained:"; stream_id stream]);;
  findNewPeer (mkCallback None).

Definition init_rejected (error : string) : M unit :=
  call (ConsoleError ["Failed to get local stream:"; error]);;
  call (Toast "Camera access error"
          "Please allow camera and microphone access to use this app."
          destructive).

Definition onMessage (peerId : string) (data : Payload) (now : Z) : M unit :=
  if String.eqb (data_type data) "chat" then
    id ← uuidv4;
    let newMessage :=
      {| msg_id := id; msg_sender := stranger;
         msg_text := data_text data; msg_timestamp := now |} in
    setMessages (λ prev, (prev ++ [newMessage])%list)
  else skip.

Definition onStream (peerId : string) (stream : MediaStream) : M unit :=
  call (ConsoleLog ["Remote stream received:"; stream_id stream]);;
  setRemoteStream (Some stream);;
  setConnecting false;;
  call (Toast "Connected!" "You're now chatting with a stranger."
          default_variant).

Definition onConnectionStateChange (peerId state : string) : M unit :=
  call (ConsoleLog ["Connection state with " +:+ peerId +:+ ": " +:+ state]);;
  if String.eqb state "disconnected" || String.eqb state "failed"
     || String.eqb state "closed"
  then
    setRemoteStream None;;
    setCurrentPeerId None;;
    setMessages (λ _, []);;
    call (Toast "Disconnected" "The other person has left the chat."
            default_variant)
  else skip.

(** The body of the effect: [init()] runs to its [await], then the three
    listeners are registered.  The effect lists [toast] as its
    only dependency; [useToast] is taken to hand out the same function
    on every render, so the effect runs once, on mount, and its cleanup
    once, on unmount. *)
Definition mountEffect : M unit :=
  init;;
  call SubscribeMessage;;
  call SubscribeStream;;
  call SubscribeConnectionState.

(** The function the effect returns. *)
Definition unmountEffect : M unit :=
  call Cleanup;;
  call UnsubscribeMessage;;
  call UnsubscribeStream;;
  call UnsubscribeConnectionState;;
  setMounted false.

(** *** User actions *)

Definition handleSendMessage (text : string) (now : Z) : M unit :=
  s ← getState;
  if negb (truthy (currentPeerId s)) then skip
  else
    id ← uuidv4;
    let newMessage :=
      {| msg_id := id; msg_sender := me;
         msg_text := text; msg_timestamp := now |} in
    setMessages (λ prev, (prev ++ [newMessage])%list);;
    call (SendMessage (default "" (currentPeerId s))
            {| data_type := "chat"; data_text := text |}).

Definition handleToggleMute : M unit :=
  s ← getState;
  let newMuteState := negb (isMuted s) in
  setIsMuted newMuteState;;
  call (ToggleAudio (negb newMuteState)).

Definition handleToggleVideo : M unit :=
  s ← getState;
  let newVideoState := negb (isVideoEnabled s) in
  setIsVideoEnabled newVideoState;;
  call (ToggleVideo newVideoState).

(** [handleSkip] is rebuilt whenever [findNewPeer] is, so it calls the
    instance made for the [currentPeerId] on screen. *)
Definition handleSkip : M unit :=
  call (Toast "Finding new partner" "Looking for someone new to chat with..."
          default_variant);;
  s ← getState;
  findNewPeer (mkCallback (currentPeerId s)).

(** Leaving [/chat] unmounts the component, which runs the function the
    effect returned. *)
Definition handleEndChat : M unit :=
  call Cleanup;;
  call (Navigate "/");;
  unmountEffect.

Definition handleLogout : M unit :=
  call Cleanup;;
  call AuthLogout;;
  call (Navigate "/");;
  unmountEffect.

(** [onToggleChat={() => setIsChatOpen(!isChatOpen)}] *)
Definition onToggleChat : M unit :=
  s ← getState;
  setIsChatOpen (negb (isChatOpen s)).

(** *** The event loop *)

(** What can happen to a mounted component: a promise it awaits
    settles, a timer it set fires, the service emits an event, or the
    user acts.  Handlers run to completion and the component re-renders
    between two events. *)
Inductive Event : Type :=
| LocalStreamFulfilled (stream : MediaStream)
| LocalStreamRejected (error : string)
| PeerFulfilled (rid : nat) (peerId : string) (remote : option MediaStream)
| PeerRejected (rid : nat) (error : string)
| TimerFired (tid : nat)
| MessageReceived (peerId : string) (data : Payload) (now : Z)
| StreamReceived (peerId : string) (stream : MediaStream)
| ConnectionStateChanged (peerId state : string)
| SendClicked (text : string) (now : Z)
| MuteClicked
| VideoClicked
| ChatClicked
| SkipClicked
| EndClicked
| LogoutClicked.

(** The world before the first effect has run. *)
Definition initialWorld : World :=
  {| state := initialState; calls := []; localStreamPending := false;
     peerRequests := ∅; timers := ∅;
     nextRequest := 0; nextTimer := 0; nextUuid := 0; mounted := true |}.

Definition mountedWorld : World := exec mountEffect initialWorld.

(** One event.  [None] when the event cannot occur: the component is
    gone, or the promise or timer named is not outstanding.  The model
    follows the component up to its unmount and stops there: in the
    browser a promise or timer still outstanding then runs its
    continuation all the same (the cleanup cancels neither), and what
    that continuation calls is outside this model. *)
Definition step (w : World) (e : Event) : option World :=
  if negb (mounted w) then None
  else match e with
  | LocalStreamFulfilled stream =>
      if localStreamPending w
      then Some (exec (setLocalStreamPending false;; init_fulfilled stream) w)
      else None
  | LocalStreamRejected error =>
      if localStreamPending w
      then Some (exec (setLocalStreamPending false;; init_rejected error) w)
      else None
  | PeerFulfilled rid peerId remote =>
      self ← peerRequests w !! rid;
      Some (exec (settleRequest rid;;
                  findNewPeer_fulfilled self peerId remote) w)
  | PeerRejected rid error =>
      self ← peerRequests w !! rid;
      Some (exec (settleRequest rid;; findNewPeer_rejected self error) w)
  | TimerFired tid =>
      handler ← timers w !! tid;
      Some (exec (clearTimer tid;; findNewPeer handler) w)
  | MessageReceived peerId data now => Some (exec (onMessage peerId data now) w)
  | StreamReceived peerId stream => Some (exec (onStream peerId stream) w)
  | ConnectionStateChanged peerId state =>
      Some (exec (onConnectionStateChange peerId state) w)
  | SendClicked text now => Some (exec (handleSendMessage text now) w)
  | MuteClicked => Some (exec handleToggleMute w)
  | VideoClicked => Some (exec handleToggleVideo w)
  | ChatClicked => Some (exec onToggleChat w)
  | SkipClicked => Some (exec handleSkip w)
  | EndClicked => Some (exec handleEndChat w)
  | LogoutClicked => Some (exec handleLogout w)
  end.

Fixpoint run (w : World) (es : list Event) : option World :=
  match es with
  | [] => Some w
  | e :: es' => w1 ← step w e; run w1 es'
  end.

Definition reachable (w : World) : Prop :=
  ∃ es, run mountedWorld es = Some w.

(** *** Reading the specification's lifecycle off the component

    The source keeps no variable for the lifecycle state.  A peer is
    acquired when [currentPeerId] is set; the session is [Connected]
    when its remote stream is there too, [Connecting] while it waits
    for one. *)
Inductive Lifecycle : Type := Unpaired | Connecting | Connected.

Definition lifecycle (s : State) : Lifecycle :=
  match currentPeerId s, remoteStream s with
  | Some _, Some _ => Connected
  | Some _, None => Connecting
  | None, _ => Unpaired
  end.

(** The events whose handler calls [findNewPeer]. *)
Definition entersSeekingPeer (e : Event) : bool :=
  match e with
  | LocalStreamFulfilled _ | TimerFired _ | SkipClicked => true
  | _ => false
  end.

(** The delays of the [setTimeout] calls in a trace, oldest first. *)
Definition timeoutDelays (cs : list Call) : list Z :=
  omap (λ c, match c with SetTimeout _ d => Some d | _ => None end) cs.

Definition isConnectToRandomUser (c : Call) : bool :=
  match c with ConnectToRandomUser => true | _ => false end.

Definition isGetLocalStream (c : Call) : bool :=
  match c with GetLocalStream => true | _ => false end.

Definition countCalls (p : Call → bool) (cs : list Call) : nat :=
  length (List.filter p cs).


(** The world once local media is there: [init] has called
    [findNewPeer] and request 0 is outstanding. *)
Definition seekingWorld : World :=
  exec (setLocalStreamPending false;; init_fulfilled (mkStream "local"))
    mountedWorld.

(** *** Invariants of the event loop *)

(** Every id in the message list was drawn from [uuidv4()] before, and
    no two messages share one. *)
Definition idsDrawn (w : World) : Prop :=
  Forall (λ m, msg_id m < nextUuid w) (messages (state w))
  ∧ NoDup (msg_id <$> messages (state w)).

(** Outstanding requests carry numbers already given out. *)
Definition requestsNumbered (w : World) : Prop :=
  ∀ rid, is_Some (peerRequests w !! rid) → rid < nextRequest w.

(** Nothing is outstanding: no promise is awaited and no timer is set. *)
Definition halted (w : World) : Prop :=
  localStreamPending w = false ∧ peerRequests w = ∅ ∧ timers w = ∅.

(** *** Reading the trace *)

(** What the service was last told about the audio track, the track
    being enabled before any [toggleAudio] call. *)
Definition audioEnabled (cs : list Call) : bool :=
  fold_left (λ acc c, match c with ToggleAudio b => b | _ => acc end) cs true.

Definition videoEnabled (cs : list Call) : bool :=
  fold_left (λ acc c, match c with ToggleVideo b => b | _ => acc end) cs true.

(** The calls of the mount effect. *)
Definition isMountCall (c : Call) : bool :=
  match c with
  | GetLocalStream | SubscribeMessage | SubscribeStream
  | SubscribeConnectionState => true
  | _ => false
  end.

(** The calls that take the listeners off again. *)
Definition isUnsubscribe (c : Call) : bool :=
  match c with
  | UnsubscribeMessage | UnsubscribeStream | UnsubscribeConnectionState => true
  | _ => false
  end.

Definition isSetTimeout (c : Call) : bool :=
  match c with SetTimeout _ _ => true | _ => false end.

Definition isPeerRejected (e : Event) : bool :=
  match e with PeerRejected _ _ => true | _ => false end.

Definition countEvents (p : Event → bool) (es : list Event) : nat :=
  length (List.filter p es).

(** The event settles the promise of peer request [rid]. *)
Definition settles (rid : nat) (e : Event) : bool :=
  match e with
  | PeerFulfilled r _ _ | PeerRejected r _ => Nat.eqb r rid
  | _ => false
  end.

(** [peerId] was returned by a peer request: [findNewPeer] asks for the
    remote stream of every peer id it adopts. *)
Definition adopted (peerId : string) (cs : list Call) : Prop :=
  GetRemoteStream peerId ∈ cs.

(** Every [disconnectFromPeer] and [sendMessage] call names a peer id
    adopted before the call. *)
Definition actsOnKnownPeers (cs : list Call) : Prop :=
  ∀ (pre : list Call) (c : Call) (post : list Call) (p : string),
    cs = (pre ++ c :: post)%list →
    c = DisconnectFromPeer p ∨ (∃ data, c = SendMessage p data) →
    adopted p pre.

(** Every peer id the component holds or has acted on was returned by a
    peer request. *)
Definition peersKnown (w : World) : Prop :=
  (∀ p, currentPeerId (state w) = Some p → adopted p (calls w))
  ∧ (∀ rid self p, peerRequests w !! rid = Some self →
       closed_currentPeerId self = Some p → adopted p (calls w))
  ∧ (∀ tid self p, timers w !! tid = Some self →
       closed_currentPeerId self = Some p → adopted p (calls w))
  ∧ actsOnKnownPeers (calls w).

(** While [getLocalStream()] is not settled there is no local stream. *)
Definition mediaAwaited (w : World) : Prop :=
  localStreamPending w = true → localStream (state w) = None.

End Chat.

(** ** [VideoContainer.tsx] *)

Module VideoContainer.
Import Chat.

#[export] Instance MediaStream_eq_dec : EqDecision MediaStream.
Proof. solve_decision. Defined.

Record Props : Type := mkProps {
  className : option string;
  stream : option MediaStream;
  muted : bool
}.

(** An instance of the component between renders.  [videoRef] is
    [videoRef.current]: [None] when the placeholder is shown and there is
    no [<video>] element, [Some srcObject] when there is one.
    [effectDeps] is the [stream] the effect last ran for. *)
Record Instance : Type := mkInstance {
  videoRef : option (option MediaStream);
  effectDeps : option (option MediaStream)
}.

Definition initialInstance : Instance :=
  {| videoRef := None; effectDeps := None |}.

(** [{stream ? <video ref={videoRef} .../> : <div>No video</div>}]: the
    element is there when [stream] is truthy, and it is the element of the
    render before when that had one. *)
Definition commit (p : Props) (i : Instance) : option (option MediaStream) :=
  match stream p with
  | Some _ =>
      match videoRef i with
      | Some srcObject => Some srcObject
      | None => Some None
      end
  | None => None
  end.

(** [useEffect(() => { if (videoRef.current && stream)
    videoRef.current.srcObject = stream; }, [stream])] *)
Definition effect (p : Props) (current : option (option MediaStream))
    : option (option MediaStream) :=
  match current, stream p with
  | Some _, Some s => Some (Some s)
  | _, _ => current
  end.

(** One render with its effect; the effect runs on the first render and
    whenever [stream] is not the one it last ran for. *)
Definition render (p : Props) (i : Instance) : Instance :=
  let current := commit p i in
  let changed :=
    match effectDeps i with
    | None => true
    | Some deps => negb (bool_decide (deps = stream p))
    end in
  {| videoRef := if changed then effect p current else current;
     effectDeps := Some (stream p) |}.

Fixpoint renders (ps : list Props) (i : Instance) : Instance :=
  match ps with
  | [] => i
  | p :: rest => renders rest (render p i)
  end.

(** What the user sees: the stream playing, if any. *)
Definition playing (i : Instance) : option MediaStream :=
  match videoRef i with
  | Some srcObject => srcObject
  | None => None
  end.

(** The ref when [stream] is bound: an element playing it, or none. *)
Definition bound (stream : option MediaStream) : option (option MediaStream) :=
  match stream with
  | Some s => Some (Some s)
  | None => None
  end.

End VideoContainer.

Import JS VisitorCounter Chat.

(** * Properties *)

Local Open Scope list_scope.

(** ** Decimal text of a count reads back as the count *)

Section ParseInt.

Lemma digit_value_pretty (d : N) :
  (d < 10)%N → digit_value (pretty_N_char d) = Some (Z.of_N d).
Proof.
  intros Hd.
  assert (d = 0 ∨ d = 1 ∨ d = 2 ∨ d = 3 ∨ d = 4 ∨ d = 5 ∨ d = 6 ∨ d = 7
          ∨ d = 8 ∨ d = 9)%N as Hcases by lia.
  repeat destruct Hcases as [-> | Hcases]; try subst d; reflexivity.
Qed.

Lemma digit_not_space (c : ascii) (d : Z) :
  digit_value c = Some d → is_whitespace c = false.
Proof.
  unfold digit_value, is_whitespace.
  destruct (Nat.leb 48 (nat_of_ascii c)) eqn:Hlo; [| discriminate].
  intros _. apply Nat.leb_le in Hlo.
  apply orb_false_intro.
  - apply andb_false_intro2, Nat.leb_gt. lia.
  - apply Nat.eqb_neq. lia.
Qed.

(** A string that starts with a one-byte character other than white
    space has nothing to trim. *)
Lemma trim_start_one_byte (c : ascii) (r : string) :
  nat_of_ascii c < 128 →
  is_whitespace c = false →
  trim_start (String c r) = String c r.
Proof.
  intros Hc Hsp.
  assert (∀ c2, is_whitespace2 c c2 = false) as H2.
  { intros c2. unfold is_whitespace2.
    apply andb_false_intro1, Nat.eqb_neq. lia. }
  assert (∀ c2 c3, is_whitespace3 c c2 c3 = false) as H3.
  { intros c2 c3. unfold is_whitespace3. cbv zeta.
    assert (Nat.eqb (nat_of_ascii c) 225 = false) as -> by (apply Nat.eqb_neq; lia).
    assert (Nat.eqb (nat_of_ascii c) 226 = false) as -> by (apply Nat.eqb_neq; lia).
    assert (Nat.eqb (nat_of_ascii c) 227 = false) as -> by (apply Nat.eqb_neq; lia).
    assert (Nat.eqb (nat_of_ascii c) 239 = false) as -> by (apply Nat.eqb_neq; lia).
    reflexivity. }
  cbn [trim_start]. rewrite Hsp.
  destruct r as [| c2 [| c3 r3]]; [done | by rewrite H2 | by rewrite H2, H3].
Qed.

Lemma trim_start_digit (c : ascii) (r : string) (d : Z) :
  digit_value c = Some d → trim_start (String c r) = String c r.
Proof.
  intros Hd. apply trim_start_one_byte; [| by apply (digit_not_space c d)].
  unfold digit_value in Hd.
  destruct (Nat.leb 48 (nat_of_ascii c) && Nat.leb (nat_of_ascii c) 57)
    eqn:Hrange; [| discriminate].
  apply andb_prop in Hrange as [_ Hhi]. apply Nat.leb_le in Hhi. lia.
Qed.

Lemma digit_not_sign (c : ascii) (d : Z) :
  digit_value c = Some d → Ascii.eqb c "-" = false ∧ Ascii.eqb c "+" = false.
Proof.
  unfold digit_value.
  destruct (Nat.leb 48 (nat_of_ascii c)) eqn:Hlo; [| discriminate].
  intros _.
  split; apply Ascii.eqb_neq; intros ->; vm_compute in Hlo; discriminate.
Qed.

(** The printer emits digits only, most significant first. *)
Lemma pretty_N_go_head (x : N) (s : string) :
  (0 < x)%N →
  ∃ c r d, pretty_N_go x s = String c r ∧ digit_value c = Some d.
Proof.
  revert s. induction (N.lt_wf_0 x) as [x _ IH]. intros s Hx.
  rewrite pretty_N_go_step by done.
  destruct (decide (x `div` 10 = 0)%N) as [Hz | Hnz].
  - rewrite Hz, pretty_N_go_0.
    eexists _, _, _. split; [done |].
    by apply digit_value_pretty, N.mod_lt.
  - apply IH; [apply N.div_lt; lia | by apply N.neq_0_lt_0].
Qed.

Lemma parse_digits_pretty_go (x : N) (s : string) :
  (0 < x)%N →
  ∃ k : Z, (0 ≤ k)%Z ∧ ∀ acc,
    parse_digits acc (pretty_N_go x s)
    = parse_digits (acc * 10 ^ k + Z.of_N x) s.
Proof.
  revert s. induction (N.lt_wf_0 x) as [x _ IH]. intros s Hx.
  rewrite pretty_N_go_step by done.
  assert (Z.of_N x = 10 * Z.of_N (x `div` 10) + Z.of_N (x `mod` 10))%Z as Hx10.
  { rewrite <- (N2Z.inj_mul 10), <- N2Z.inj_add. f_equal.
    apply N.div_mod. lia. }
  destruct (decide (x `div` 10 = 0)%N) as [Hz | Hnz].
  - exists 1%Z. split; [lia |]. intros acc.
    rewrite Hz, pretty_N_go_0. simpl parse_digits.
    rewrite digit_value_pretty by (by apply N.mod_lt).
    f_equal. rewrite Hx10, Hz. lia.
  - destruct (IH (x `div` 10)%N) with
      (s := String (pretty_N_char (x `mod` 10)) s) as (k & Hk & Hgo).
    { apply N.div_lt; lia. }
    { by apply N.neq_0_lt_0. }
    exists (k + 1)%Z. split; [lia |]. intros acc.
    rewrite Hgo. simpl parse_digits.
    rewrite digit_value_pretty by (by apply N.mod_lt).
    f_equal. rewrite Hx10, Z.pow_add_r by lia. lia.
Qed.

Lemma parse_unsigned_pretty (p : positive) :
  let s := pretty (N.pos p) in
  trim_start s = s ∧ starts_with_digit s = true
  ∧ parse_digits 0 s = Z.pos p
  ∧ ∃ c r, s = String c r ∧ Ascii.eqb c "-" = false ∧ Ascii.eqb c "+" = false.
Proof.
  unfold pretty, pretty_N. rewrite decide_False by done.
  destruct (pretty_N_go_head (N.pos p) "") as (c & r & d & Hs & Hd); [lia |].
  destruct (parse_digits_pretty_go (N.pos p) "") as (k & _ & Hgo); [lia |].
  cbv zeta. rewrite Hgo. rewrite Hs.
  repeat split.
  - by apply (trim_start_digit c r d).
  - simpl. rewrite Hd. apply bool_decide_eq_true. by eexists.
  - exists c, r. split; [done |]. by apply (digit_not_sign c d).
Qed.

Lemma parseInt10_minus (s : string) :
  parseInt10 (String "-"%char s)
  = if starts_with_digit s then Num (-1 * parse_digits 0 s) else NaN.
Proof.
  unfold parseInt10.
  rewrite trim_start_one_byte by (vm_compute; first [lia | reflexivity]).
  reflexivity.
Qed.

(** [parseInt(n.toString(), 10)] is [n] for every integer [n]. *)
Lemma parseInt10_toString (z : Z) : parseInt10 (toString (Num z)) = Num z.
Proof.
  destruct z as [| p | p]; [reflexivity | |].
  - destruct (parse_unsigned_pretty p)
      as (Htrim & Hdig & Hval & c & r & Hs & Hm & Hp).
    change (toString (Num (Z.pos p))) with (pretty (N.pos p)).
    unfold parseInt10. rewrite Htrim.
    rewrite Hs, Hm, Hp, <- Hs, Hdig, Hval. f_equal.
  - destruct (parse_unsigned_pretty p)
      as (Htrim & Hdig & Hval & c & r & Hs & Hm & Hp).
    change (toString (Num (Z.neg p)))
      with (String "-"%char (pretty (N.pos p))).
    rewrite parseInt10_minus, Hdig, Hval. reflexivity.
Qed.

(** White space outside ASCII is skipped too: a no-break space (C2 A0)
    and a byte order mark (EF BB BF) before the digits. *)
Lemma parseInt10_unicode_space :
  parseInt10 (String (ascii_of_nat 194) (String (ascii_of_nat 160) "7")) = Num 7
  ∧ parseInt10
      (String (ascii_of_nat 239)
         (String (ascii_of_nat 187) (String (ascii_of_nat 191) " 42px")))
    = Num 42.
Proof. split; vm_compute; reflexivity. Qed.

Lemma toString_truthy (z : Z) : truthy (Some (toString (Num z))) = true.
Proof.
  unfold truthy.
  destruct (String.eqb_spec (toString (Num z)) "") as [Hempty | _];
    [| reflexivity].
  pose proof (parseInt10_toString z) as Hrt.
  rewrite Hempty in Hrt. discriminate.
Qed.

End ParseInt.

(** ** The visitor counter *)

Section VisitorCounterFacts.

Lemma currentCount_absent (ls : gmap string string) :
  ls !! "visitor-count" = None → currentCount ls = Num 0.
Proof. unfold currentCount. by intros ->. Qed.

Lemma currentCount_stored (ls : gmap string string) (z : Z) :
  currentCount (<["visitor-count" := toString (Num z)]> ls) = Num z.
Proof.
  unfold currentCount. rewrite lookup_insert_eq.
  rewrite toString_truthy. apply parseInt10_toString.
Qed.

Lemma counted_marked (ss : gmap string string) :
  counted (<["counted-visit" := "true"]> ss) = true.
Proof. unfold counted. by rewrite lookup_insert_eq. Qed.

Lemma mount_counted (b : Browser) :
  counted (sessionStorage b) = true →
  mount b = (b, currentCount (localStorage b)).
Proof. unfold mount. by intros ->. Qed.

Lemma mount_uncounted (b : Browser) :
  counted (sessionStorage b) = false →
  mount b =
    ({| localStorage :=
          <["visitor-count" := toString (add (currentCount (localStorage b)) (Num 1))]>
            (localStorage b);
        sessionStorage := <["counted-visit" := "true"]> (sessionStorage b) |},
     add (currentCount (localStorage b)) (Num 1)).
Proof. unfold mount. by intros ->. Qed.

(** Once the session is counted, further mounts change nothing and all
    show the stored count. *)
Lemma mounts_counted (k : nat) (b : Browser) :
  counted (sessionStorage b) = true →
  mounts k b = (b, replicate k (currentCount (localStorage b))).
Proof.
  intros Hc. induction k as [| k IH]; [reflexivity |].
  simpl. rewrite (mount_counted b Hc), IH. reflexivity.
Qed.

(** C3. In a browsing session that has not been counted yet, with a
    persisted count of [n] (taken as 0 when nothing is stored), the first
    mount stores and displays [n + 1] and sets the session flag; each of
    any number [k] of later mounts in the session leaves both storage
    areas as they are and displays [n + 1].  On a first-ever visit the
    count shown is 1. *)
Theorem visitor_counted_once_per_session (b : Browser) (n : Z) (k : nat) :
  currentCount (localStorage b) = Num n →
  (- MAX_SAFE_INTEGER ≤ n < MAX_SAFE_INTEGER)%Z →
  counted (sessionStorage b) = false →
  ∃ b1 : Browser,
    mount b = (b1, Num (n + 1)) ∧
    localStorage b1 = <["visitor-count" := toString (Num (n + 1))]> (localStorage b) ∧
    currentCount (localStorage b1) = Num (n + 1) ∧
    counted (sessionStorage b1) = true ∧
    mounts k b1 = (b1, replicate k (Num (n + 1))) ∧
    (localStorage b !! "visitor-count" = None →
     (mount b).2 = Num 1 ∧ badge (mount b).2 = "1 visitor").
Proof.
  intros Hn _ Hc.
  rewrite (mount_uncounted b Hc), Hn. simpl add.
  set (b1 := {| localStorage := _; sessionStorage := _ |}).
  assert (currentCount (localStorage b1) = Num (n + 1)) as Hstored
    by apply currentCount_stored.
  assert (counted (sessionStorage b1) = true) as Hflag
    by apply counted_marked.
  exists b1. repeat split; try done.
  - rewrite mounts_counted by done. by rewrite Hstored.
  - rewrite (currentCount_absent _ H) in Hn. by injection Hn as <-.
  - rewrite (currentCount_absent _ H) in Hn. by injection Hn as <-.
Qed.

Lemma visitor_counted_once_witness :
  currentCount (localStorage (mkBrowser ∅ ∅)) = Num 0 ∧
  counted (sessionStorage (mkBrowser ∅ ∅)) = false ∧
  ∃ b1 : Browser,
    mount (mkBrowser ∅ ∅) = (b1, Num (0 + 1)) ∧
    localStorage b1 = <["visitor-count" := toString (Num (0 + 1))]> (localStorage (mkBrowser ∅ ∅)) ∧
    currentCount (localStorage b1) = Num (0 + 1) ∧
    counted (sessionStorage b1) = true ∧
    mounts 3 b1 = (b1, replicate 3 (Num (0 + 1))) ∧
    (localStorage (mkBrowser ∅ ∅) !! "visitor-count" = None →
     (mount (mkBrowser ∅ ∅)).2 = Num 1 ∧ badge (mount (mkBrowser ∅ ∅)).2 = "1 visitor").
Proof.
  split; [reflexivity |]. split; [reflexivity |].
  apply (visitor_counted_once_per_session (mkBrowser ∅ ∅) 0 3);
    [reflexivity | unfold MAX_SAFE_INTEGER; lia | reflexivity].
Defined.

(** The next browsing session is counted again: the example of the
    specification, 1 then 2. *)
Lemma next_session_counts_again (b : Browser) (n : Z) :
  currentCount (localStorage b) = Num n →
  (mount (new_session b)).2 = Num (n + 1).
Proof.
  intros Hn. rewrite mount_uncounted by reflexivity.
  simpl. by rewrite Hn.
Qed.

End VisitorCounterFacts.

(** ** The chat session controller *)

(** Replaces every world in sight by its fields. *)
Ltac open_worlds :=
  repeat match goal with
    | w : World |- _ => destruct w as [[? ? ? ? ? ? ? ? ?] ? ? ? ? ? ? ? ?]
    end;
  cbn [state calls localStreamPending peerRequests timers nextRequest
       nextTimer nextUuid mounted localStream remoteStream currentPeerId
       isMuted isVideoEnabled isChatOpen messages connecting
       connectionStatus] in *.

(** Runs the handlers in the goal on worlds given by their fields. *)
Ltac run_handlers :=
  cbv [exec
       handleSendMessage handleToggleMute handleToggleVideo handleSkip
       handleEndChat handleLogout onToggleChat
       onMessage onStream onConnectionStateChange
       init init_fulfilled init_rejected mountEffect unmountEffect
       findNewPeer findNewPeer_fulfilled findNewPeer_rejected
       awaitConnectToRandomUser settleRequest setTimeout clearTimer uuidv4
       setLocalStream setRemoteStream setCurrentPeerId setIsMuted
       setIsVideoEnabled setIsChatOpen setMessages setConnecting
       setConnectionStatus setLocalStreamPending setMounted
       setState getState call skip mbind mret M_bind M_ret
       fst snd state calls localStreamPending peerRequests timers
       nextRequest nextTimer nextUuid mounted
       localStream remoteStream currentPeerId isMuted isVideoEnabled
       isChatOpen messages connecting connectionStatus
       closed_currentPeerId].

(** Takes both sides of a test a handler is stuck on. *)
Ltac case_branch :=
  match goal with
  | |- context [match ?r with Some _ => _ | None => _ end] =>
      is_var r; destruct r
  | |- context [if ?c then _ else _] => is_var c; destruct c
  | |- context [if ?c then _ else _] => destruct c eqn:?
  end.

Ltac handler :=
  open_worlds; run_handlers; repeat (case_branch; run_handlers).

Section UserActions.

(** C4. With no active peer ([currentPeerId] is [null]) the send action
    changes nothing, whatever the text: the message list, the calls made
    and everything else are as before. *)
Theorem send_without_peer_is_noop (text : string) (now : Z) (w : World) :
  currentPeerId (state w) = None →
  exec (handleSendMessage text now) w = w
  ∧ (mounted w = true → step w (SendClicked text now) = Some w).
Proof.
  intros Hnull.
  assert (exec (handleSendMessage text now) w = w) as Hnoop.
  { open_worlds. subst. reflexivity. }
  split; [exact Hnoop |].
  intros Hm. unfold step. rewrite Hm. cbn [negb]. by rewrite Hnoop.
Qed.

Lemma send_without_peer_witness :
  currentPeerId (state mountedWorld) = None
  ∧ exec (handleSendMessage "hello" 0) mountedWorld = mountedWorld
  ∧ (mounted mountedWorld = true →
     step mountedWorld (SendClicked "hello" 0) = Some mountedWorld).
Proof.
  split; [reflexivity |].
  apply (send_without_peer_is_noop "hello" 0 mountedWorld). reflexivity.
Defined.

(** C7. Two mute toggles in a row leave the component state as it was
    (so [isMuted] is back at its value) and make exactly two calls, both
    [toggleAudio]; two video toggles likewise, with two [toggleVideo]
    calls. *)
Theorem toggles_cancel_in_pairs (w : World) :
  let wm := exec handleToggleMute (exec handleToggleMute w) in
  let wv := exec handleToggleVideo (exec handleToggleVideo w) in
  isMuted (state wm) = isMuted (state w)
  ∧ state wm = state w
  ∧ calls wm = calls w ++ [ToggleAudio (isMuted (state w));
                           ToggleAudio (negb (isMuted (state w)))]
  ∧ isVideoEnabled (state wv) = isVideoEnabled (state w)
  ∧ state wv = state w
  ∧ calls wv = calls w ++ [ToggleVideo (negb (isVideoEnabled (state w)));
                           ToggleVideo (isVideoEnabled (state w))].
Proof.
  handler. rewrite <- !app_assoc. cbn [app].
  rewrite !negb_involutive. done.
Qed.

End UserActions.

Section ServiceEvents.

(** C10. A message event whose payload type is not ['chat'] leaves the
    whole world as it was: no message is appended, no state is touched,
    no call is made. *)
Theorem non_chat_message_ignored
    (peerId : string) (data : Payload) (now : Z) (w : World) :
  data_type data ≠ "chat" →
  exec (onMessage peerId data now) w = w
  ∧ (mounted w = true → step w (MessageReceived peerId data now) = Some w).
Proof.
  intros Hty. apply String.eqb_neq in Hty.
  assert (exec (onMessage peerId data now) w = w) as Hnoop.
  { unfold onMessage. rewrite Hty. by open_worlds. }
  split; [exact Hnoop |].
  intros Hm. unfold step. rewrite Hm. cbn [negb]. by rewrite Hnoop.
Qed.

Lemma non_chat_message_witness :
  data_type (mkPayload "typing" "") ≠ "chat"
  ∧ exec (onMessage "peer-1" (mkPayload "typing" "") 0) mountedWorld
    = mountedWorld
  ∧ (mounted mountedWorld = true →
     step mountedWorld (MessageReceived "peer-1" (mkPayload "typing" "") 0)
     = Some mountedWorld).
Proof.
  split; [discriminate |].
  apply (non_chat_message_ignored "peer-1" (mkPayload "typing" "") 0
           mountedWorld).
  discriminate.
Defined.

(** C6. On a connection-state event with state [disconnected], [failed]
    or [closed] the handler clears the remote stream, the peer id and
    the message list and shows the "Disconnected" toast.  Apart from the
    console line that is the only call: no peer is requested, no timer
    is set, and the outstanding requests and timers are as before. *)
Theorem connection_lost_clears_session
    (peerId st : string) (w : World) :
  st = "disconnected" ∨ st = "failed" ∨ st = "closed" →
  let w' := exec (onConnectionStateChange peerId st) w in
  remoteStream (state w') = None
  ∧ currentPeerId (state w') = None
  ∧ messages (state w') = []
  ∧ calls w' = calls w ++
      [ConsoleLog ["Connection state with " +:+ peerId +:+ ": " +:+ st];
       Toast "Disconnected" "The other person has left the chat."
         default_variant]
  ∧ peerRequests w' = peerRequests w
  ∧ timers w' = timers w
  ∧ nextRequest w' = nextRequest w
  ∧ nextTimer w' = nextTimer w
  ∧ localStreamPending w' = localStreamPending w
  ∧ (mounted w = true →
     step w (ConnectionStateChanged peerId st) = Some w').
Proof.
  intros Hst w'.
  assert (String.eqb st "disconnected" || String.eqb st "failed"
          || String.eqb st "closed" = true) as Hcond.
  { destruct Hst as [-> | [-> | ->]]; reflexivity. }
  assert (mounted w = true →
          step w (ConnectionStateChanged peerId st) = Some w') as Hstep.
  { intros Hm. unfold step. rewrite Hm. reflexivity. }
  split_and!; [.. | exact Hstep]; clear Hstep; subst w'.
  all: unfold onConnectionStateChange; rewrite Hcond; handler.
  all: by rewrite <- ?app_assoc.
Qed.

Lemma connection_lost_witness :
  ("failed" = "disconnected" ∨ "failed" = "failed" ∨ "failed" = "closed")
  ∧ let w' := exec (onConnectionStateChange "peer-1" "failed") mountedWorld in
    remoteStream (state w') = None
    ∧ currentPeerId (state w') = None
    ∧ messages (state w') = []
    ∧ calls w' = calls mountedWorld ++
        [ConsoleLog ["Connection state with " +:+ "peer-1" +:+ ": " +:+ "failed"];
         Toast "Disconnected" "The other person has left the chat."
           default_variant]
    ∧ peerRequests w' = peerRequests mountedWorld
    ∧ timers w' = timers mountedWorld
    ∧ nextRequest w' = nextRequest mountedWorld
    ∧ nextTimer w' = nextTimer mountedWorld
    ∧ localStreamPending w' = localStreamPending mountedWorld
    ∧ (mounted mountedWorld = true →
       step mountedWorld (ConnectionStateChanged "peer-1" "failed") = Some w').
Proof.
  split; [right; left; reflexivity |].
  apply (connection_lost_clears_session "peer-1" "failed" mountedWorld).
  right; left; reflexivity.
Defined.

End ServiceEvents.

(** Splits a goal [step w e = Some w' → _] into the cases of [step],
    with [w'] replaced by the world the handler builds. *)
Ltac step_cases :=
  unfold step;
  match goal with
  | |- context [mounted ?w] => destruct (mounted w) eqn:?; [| discriminate]
  end;
  cbn [negb];
  match goal with
  | |- context [match ?e with LocalStreamFulfilled _ => _ | _ => _ end] =>
      destruct e
  end;
  repeat match goal with
    | |- context [if localStreamPending ?w then _ else _] =>
        destruct (localStreamPending w) eqn:?; [| discriminate]
    | |- context [peerRequests ?w !! ?k ≫= _] =>
        destruct (peerRequests w !! k) eqn:?; [| discriminate]
    | |- context [timers ?w !! ?k ≫= _] =>
        destruct (timers w !! k) eqn:?; [| discriminate]
    end;
  cbn [mbind option_bind];
  let Hs := fresh "Hs" in
  intros Hs; apply (inj Some) in Hs; subst.

(** Exhibits the calls a handler has added to the trace. *)
Ltac new_calls :=
  first
    [ eexists; split;
      [rewrite <- ?app_assoc; cbn [app]; reflexivity |]
    | exists []; split; [by rewrite app_nil_r |] ].

Section EventLoop.

(** What one event does to the message list and the id supply. *)
Lemma step_messages (w : World) (e : Event) (w' : World) :
  step w e = Some w' →
  (messages (state w') = messages (state w) ∧ nextUuid w' = nextUuid w)
  ∨ (messages (state w') = [] ∧ nextUuid w' = nextUuid w)
  ∨ (∃ m, messages (state w') = messages (state w) ++ [m]
          ∧ msg_id m = nextUuid w ∧ nextUuid w' = S (nextUuid w)).
Proof.
  step_cases.
  all: handler.
  all: try (left; split; reflexivity).
  all: try (right; left; split; reflexivity).
  all: right; right; eexists; split_and!; reflexivity.
Qed.

(** Appending a message whose id is the next draw keeps ids distinct. *)
Lemma append_next_id (ms : list Message) (m : Message) (n : nat) :
  Forall (λ m, msg_id m < n) ms →
  NoDup (msg_id <$> ms) →
  msg_id m = n →
  (msg_id m ∉ (msg_id <$> ms))
  ∧ Forall (λ m, msg_id m < S n) (ms ++ [m])
  ∧ NoDup (msg_id <$> (ms ++ [m])).
Proof.
  intros Hlt Hnd Hm.
  assert (msg_id m ∉ (msg_id <$> ms)) as Hfresh.
  { intros (m' & Heq & Hin)%list_elem_of_fmap.
    rewrite Forall_forall in Hlt. specialize (Hlt m' Hin).
    simpl in Hlt. lia. }
  split_and!; [done | |].
  - apply Forall_app. split.
    + eapply Forall_impl; [exact Hlt |]. intros m' Hm'. simpl in *. lia.
    + apply Forall_singleton. lia.
  - rewrite fmap_app. apply NoDup_app. split_and!; [done | |].
    + intros i Hi Hi'. apply list_elem_of_singleton in Hi' as ->.
      by apply Hfresh.
    + apply NoDup_singleton.
Qed.

Lemma step_idsDrawn (w : World) (e : Event) (w' : World) :
  idsDrawn w → step w e = Some w' → idsDrawn w'.
Proof.
  intros [Hlt Hnd] Hs. unfold idsDrawn.
  destruct (step_messages w e w' Hs)
    as [[-> ->] | [[-> ->] | (m & -> & Hm & ->)]].
  - done.
  - split; [constructor | apply NoDup_nil_2].
  - by apply append_next_id.
Qed.

Lemma run_idsDrawn (es : list Event) (w w' : World) :
  idsDrawn w → run w es = Some w' → idsDrawn w'.
Proof.
  revert w. induction es as [| e es IH]; intros w Hinv Hrun.
  - by injection Hrun as <-.
  - cbn [run] in Hrun. destruct (step w e) as [w1 |] eqn:Hs; [| discriminate].
    cbn [mbind option_bind] in Hrun. eauto using step_idsDrawn.
Qed.

Lemma reachable_idsDrawn (w : World) : reachable w → idsDrawn w.
Proof.
  intros [es Hrun]. apply (run_idsDrawn es mountedWorld); [| done].
  split; [constructor | apply NoDup_nil_2].
Qed.

(** C9. A message event whose payload type is ['chat'] appends one
    message to the list: sender [stranger], the payload's text, and an id
    no message in the list has.  The handler looks neither at the peer
    id of the event nor at [currentPeerId], so this holds whatever they
    are, also with no peer active. *)
Theorem chat_message_appended
    (peerId : string) (data : Payload) (now : Z) (w : World) :
  reachable w →
  data_type data = "chat" →
  let w' := exec (onMessage peerId data now) w in
  let newMessage := mkMessage (nextUuid w) stranger (data_text data) now in
  messages (state w') = messages (state w) ++ [newMessage]
  ∧ (msg_id newMessage ∉ (msg_id <$> messages (state w)))
  ∧ NoDup (msg_id <$> messages (state w'))
  ∧ currentPeerId (state w') = currentPeerId (state w)
  ∧ calls w' = calls w
  ∧ (mounted w = true →
     step w (MessageReceived peerId data now) = Some w').
Proof.
  intros Hreach Hty w' newMessage.
  apply String.eqb_eq in Hty.
  assert (mounted w = true →
          step w (MessageReceived peerId data now) = Some w') as Hstep.
  { intros Hm. unfold step. rewrite Hm. reflexivity. }
  destruct (reachable_idsDrawn w Hreach) as [Hlt Hnd].
  destruct (append_next_id (messages (state w)) newMessage (nextUuid w))
    as (Hfresh & _ & Hnd'); [done.. |].
  assert (messages (state w') = messages (state w) ++ [newMessage]) as Hmsgs.
  { subst w' newMessage. unfold onMessage. rewrite Hty. by handler. }
  split_and!; [done | done | by rewrite Hmsgs | | | done].
  - subst w'. unfold onMessage. rewrite Hty. by handler.
  - subst w'. unfold onMessage. rewrite Hty. by handler.
Qed.

Lemma chat_message_witness :
  reachable mountedWorld
  ∧ data_type (mkPayload "chat" "hi") = "chat"
  ∧ currentPeerId (state mountedWorld) = None
  ∧ let w' := exec (onMessage "peer-9" (mkPayload "chat" "hi") 7) mountedWorld in
    let newMessage :=
      mkMessage (nextUuid mountedWorld) stranger
        (data_text (mkPayload "chat" "hi")) 7 in
    messages (state w') = messages (state mountedWorld) ++ [newMessage]
    ∧ (msg_id newMessage ∉ (msg_id <$> messages (state mountedWorld)))
    ∧ NoDup (msg_id <$> messages (state w'))
    ∧ currentPeerId (state w') = currentPeerId (state mountedWorld)
    ∧ calls w' = calls mountedWorld
    ∧ (mounted mountedWorld = true →
       step mountedWorld (MessageReceived "peer-9" (mkPayload "chat" "hi") 7)
       = Some w').
Proof.
  split; [by exists [] |]. split; [reflexivity |]. split; [reflexivity |].
  apply (chat_message_appended "peer-9" (mkPayload "chat" "hi") 7 mountedWorld);
    [by exists [] | reflexivity].
Defined.

Lemma countCalls_app (p : Call → bool) (cs1 cs2 : list Call) :
  countCalls p (cs1 ++ cs2) = countCalls p cs1 + countCalls p cs2.
Proof. unfold countCalls. by rewrite List.filter_app, length_app. Qed.

Lemma timeoutDelays_app (cs1 cs2 : list Call) :
  timeoutDelays (cs1 ++ cs2) = timeoutDelays cs1 ++ timeoutDelays cs2.
Proof. apply omap_app. Qed.

(** No handler calls [getLocalStream]: only [init] does, on mount. *)
Lemma step_calls (w : World) (e : Event) (w' : World) :
  step w e = Some w' →
  ∃ new, calls w' = calls w ++ new
         ∧ countCalls isGetLocalStream new = 0.
Proof.
  step_cases.
  all: handler.
  all: new_calls; reflexivity.
Qed.

Lemma run_calls (es : list Event) (w w' : World) :
  run w es = Some w' →
  ∃ new, calls w' = calls w ++ new
         ∧ countCalls isGetLocalStream new = 0.
Proof.
  revert w. induction es as [| e es IH]; intros w Hrun.
  - injection Hrun as <-. exists []. by rewrite app_nil_r.
  - cbn [run] in Hrun. destruct (step w e) as [w1 |] eqn:Hs; [| discriminate].
    cbn [mbind option_bind] in Hrun.
    destruct (step_calls w e w1 Hs) as (new1 & Hc1 & Hnew1).
    destruct (IH w1 Hrun) as (new2 & Hc2 & Hnew2).
    exists (new1 ++ new2). split; [by rewrite Hc2, Hc1, app_assoc |].
    rewrite countCalls_app. lia.
Qed.

(** With nothing outstanding, only a skip starts a peer request. *)
Lemma step_halted (w : World) (e : Event) (w' : World) :
  halted w →
  e ≠ SkipClicked →
  step w e = Some w' →
  halted w'
  ∧ ∃ new, calls w' = calls w ++ new
           ∧ countCalls isConnectToRandomUser new = 0
           ∧ timeoutDelays new = [].
Proof.
  intros (Hlp & Hpr & Htm) Hne. unfold halted. step_cases.
  all: try congruence.
  all: try match goal with
         | H : peerRequests _ !! _ = Some _ |- _ =>
             rewrite Hpr, lookup_empty in H; discriminate H
         | H : timers _ !! _ = Some _ |- _ =>
             rewrite Htm, lookup_empty in H; discriminate H
         end.
  all: handler.
  all: (split; [done |]); new_calls; by split.
Qed.

Lemma run_halted (es : list Event) (w w' : World) :
  halted w →
  SkipClicked ∉ es →
  run w es = Some w' →
  halted w'
  ∧ ∃ new, calls w' = calls w ++ new
           ∧ countCalls isConnectToRandomUser new = 0
           ∧ timeoutDelays new = [].
Proof.
  revert w. induction es as [| e es IH]; intros w Hh Hskip Hrun.
  - injection Hrun as <-. split; [done |].
    exists []. by rewrite app_nil_r.
  - cbn [run] in Hrun. destruct (step w e) as [w1 |] eqn:Hs; [| discriminate].
    cbn [mbind option_bind] in Hrun. apply not_elem_of_cons in Hskip as [Hne Hskip].
    destruct (step_halted w e w1 Hh) as (Hh1 & new1 & He1 & Hc1 & Ht1);
      [done.. |].
    destruct (IH w1 Hh1 Hskip Hrun) as (Hh' & new2 & He2 & Hc2 & Ht2).
    split; [done |].
    exists (new1 ++ new2). split_and!.
    + by rewrite He2, He1, app_assoc.
    + rewrite countCalls_app. lia.
    + by rewrite timeoutDelays_app, Ht1, Ht2.
Qed.

(** While [getLocalStream()] is pending, a peer request or a timer is
    outstanding only if the user has pressed skip. *)
Lemma step_awaiting_media (w : World) (e : Event) (w' : World) :
  (localStreamPending w = true → peerRequests w = ∅ ∧ timers w = ∅) →
  e ≠ SkipClicked →
  step w e = Some w' →
  localStreamPending w' = true → peerRequests w' = ∅ ∧ timers w' = ∅.
Proof.
  intros Hinv Hne Hs. revert Hs Hinv. step_cases.
  all: try congruence.
  all: handler.
  all: intros Hinv Hp; try discriminate Hp.
  all: destruct (Hinv Hp) as [Hpr Htm]; subst.
  all: try match goal with
         | H : ∅ !! _ = Some _ |- _ => rewrite lookup_empty in H; discriminate H
         end.
  all: done.
Qed.

Lemma run_awaiting_media (es : list Event) (w w' : World) :
  (localStreamPending w = true → peerRequests w = ∅ ∧ timers w = ∅) →
  SkipClicked ∉ es →
  run w es = Some w' →
  localStreamPending w' = true → peerRequests w' = ∅ ∧ timers w' = ∅.
Proof.
  revert w. induction es as [| e es IH]; intros w Hinv Hskip Hrun.
  - by injection Hrun as <-.
  - cbn [run] in Hrun. destruct (step w e) as [w1 |] eqn:Hs; [| discriminate].
    cbn [mbind option_bind] in Hrun.
    apply not_elem_of_cons in Hskip as [Hne Hskip].
    apply (IH w1); [| done | done].
    by apply (step_awaiting_media w e).
Qed.

(** C8 as stated fails.  The user presses skip while [getLocalStream()]
    is still pending, which starts peer request 0.  The rejection of
    [getLocalStream()] leaves that request outstanding: when it is
    rejected in turn the 3000 ms timer is set, and when the timer fires
    [connectToRandomUser] is called again, with no user action after the
    media failure; when it is fulfilled instead, its peer is adopted and
    the session goes on with no local stream. *)
Lemma seeking_survives_media_failure :
  localStreamPending <$> run mountedWorld [SkipClicked] = Some true
  ∧ calls <$>
      run mountedWorld [SkipClicked; LocalStreamRejected "NotAllowedError"]
    = Some
        [GetLocalStream; SubscribeMessage; SubscribeStream;
         SubscribeConnectionState;
         Toast "Finding new partner"
           "Looking for someone new to chat with..." default_variant;
         ConnectToRandomUser;
         ConsoleError ["Failed to get local stream:"; "NotAllowedError"];
         Toast "Camera access error"
           "Please allow camera and microphone access to use this app."
           destructive]
  ∧ calls <$>
      run mountedWorld
        [SkipClicked; LocalStreamRejected "NotAllowedError";
         PeerRejected 0 "busy"; TimerFired 0]
    = Some
        [GetLocalStream; SubscribeMessage; SubscribeStream;
         SubscribeConnectionState;
         Toast "Finding new partner"
           "Looking for someone new to chat with..." default_variant;
         ConnectToRandomUser;
         ConsoleError ["Failed to get local stream:"; "NotAllowedError"];
         Toast "Camera access error"
           "Please allow camera and microphone access to use this app."
           destructive;
         ConsoleError ["Error connecting to peer:"; "busy"];
         SetTimeout (mkCallback None) 3000;
         ConnectToRandomUser]
  ∧ (λ w, (currentPeerId (state w), localStream (state w),
           lifecycle (state w))) <$>
      run mountedWorld
        [SkipClicked; LocalStreamRejected "NotAllowedError";
         PeerFulfilled 0 "A" (Some (mkStream "remote"))]
    = Some (Some "A", None, Connected).
Proof. split_and!; vm_compute; reflexivity. Qed.

(** C8 as amended.  When [getLocalStream()] is rejected, [init] logs the
    error and shows the destructive "Camera access error" toast, and
    that is all: the component state is untouched, and no peer request
    and no timer is started or cancelled.  Whatever happens afterwards,
    [getLocalStream] is never called again.  When no peer request and no
    timer was outstanding at the failure, then unless the user presses
    skip no peer is ever requested and no timer is ever set; and at the
    failure none is outstanding unless the user has pressed skip
    before. *)
Theorem media_failure_is_terminal
    (w0 : World) (error : string) (es : list Event) (w : World) :
  mounted w0 = true →
  localStreamPending w0 = true →
  run w0 (LocalStreamRejected error :: es) = Some w →
  ∃ w1 new,
    step w0 (LocalStreamRejected error) = Some w1
    ∧ state w1 = state w0
    ∧ calls w1 = calls w0 ++
        [ConsoleError ["Failed to get local stream:"; error];
         Toast "Camera access error"
           "Please allow camera and microphone access to use this app."
           destructive]
    ∧ peerRequests w1 = peerRequests w0
    ∧ timers w1 = timers w0
    ∧ localStreamPending w1 = false
    ∧ calls w = calls w1 ++ new
    ∧ countCalls isGetLocalStream new = 0
    ∧ (peerRequests w0 = ∅ → timers w0 = ∅ → SkipClicked ∉ es →
       countCalls isConnectToRandomUser new = 0
       ∧ timeoutDelays new = []
       ∧ halted w)
    ∧ (∀ es0, run mountedWorld es0 = Some w0 → SkipClicked ∉ es0 →
       peerRequests w0 = ∅ ∧ timers w0 = ∅).
Proof.
  intros Hm Hlp Hrun.
  assert (step w0 (LocalStreamRejected error)
          = Some (exec (setLocalStreamPending false;; init_rejected error) w0))
    as Hs.
  { unfold step. by rewrite Hm, Hlp. }
  cbn [run] in Hrun. rewrite Hs in Hrun. cbn [mbind option_bind] in Hrun.
  set (w1 := exec _ w0) in *.
  assert (peerRequests w1 = peerRequests w0 ∧ timers w1 = timers w0
          ∧ localStreamPending w1 = false) as (Hpr1 & Htm1 & Hlp1).
  { clear. subst w1. by handler. }
  destruct (run_calls es w1 w Hrun) as (new & Hnew & Hmedia).
  exists w1, new. split_and!; try done.
  - clear. subst w1. handler. by rewrite <- app_assoc.
  - intros Hpr Htm Hskip.
    assert (halted w1) as Hh1.
    { unfold halted. by rewrite Hpr1, Htm1, Hpr, Htm. }
    destruct (run_halted es w1 w Hh1 Hskip Hrun)
      as (Hh & new' & Hnew' & Hc & Ht).
    rewrite Hnew in Hnew'. apply app_inv_head in Hnew' as <-. done.
  - intros es0 Hrun0 Hskip0.
    by apply (run_awaiting_media es0 mountedWorld w0).
Qed.

Lemma media_failure_witness :
  let es := [MessageReceived "peer-1" (mkPayload "chat" "hi") 0; MuteClicked] in
  let w :=
    default mountedWorld
      (run mountedWorld (LocalStreamRejected "NotAllowedError" :: es)) in
  mounted mountedWorld = true
  ∧ localStreamPending mountedWorld = true
  ∧ run mountedWorld (LocalStreamRejected "NotAllowedError" :: es) = Some w
  ∧ ∃ w1 new,
      step mountedWorld (LocalStreamRejected "NotAllowedError") = Some w1
      ∧ state w1 = state mountedWorld
      ∧ calls w1 = calls mountedWorld ++
          [ConsoleError ["Failed to get local stream:"; "NotAllowedError"];
           Toast "Camera access error"
             "Please allow camera and microphone access to use this app."
             destructive]
      ∧ peerRequests w1 = peerRequests mountedWorld
      ∧ timers w1 = timers mountedWorld
      ∧ localStreamPending w1 = false
      ∧ calls w = calls w1 ++ new
      ∧ countCalls isGetLocalStream new = 0
      ∧ (peerRequests mountedWorld = ∅ → timers mountedWorld = ∅ →
         SkipClicked ∉ es →
         countCalls isConnectToRandomUser new = 0
         ∧ timeoutDelays new = []
         ∧ halted w)
      ∧ (∀ es0, run mountedWorld es0 = Some mountedWorld →
         SkipClicked ∉ es0 →
         peerRequests mountedWorld = ∅ ∧ timers mountedWorld = ∅).
Proof.
  intros es w.
  assert (run mountedWorld (LocalStreamRejected "NotAllowedError" :: es)
          = Some w) as Hrun by (vm_compute; reflexivity).
  split; [reflexivity |]. split; [reflexivity |]. split; [exact Hrun |].
  exact (media_failure_is_terminal mountedWorld "NotAllowedError" es w
           eq_refl eq_refl Hrun).
Defined.

(** One failure: the [catch] block sets a 3000 ms timer for the same
    instance of [findNewPeer], and when the timer fires that instance
    resets the session state and asks for a peer again. *)
Lemma reject_then_retry
    (w : World) (rid : nat) (self : Callback) (error : string) :
  mounted w = true →
  peerRequests w !! rid = Some self →
  let w1 := exec (settleRequest rid;; findNewPeer_rejected self error) w in
  let w2 := exec (clearTimer (nextTimer w);; findNewPeer self) w1 in
  step w (PeerRejected rid error) = Some w1
  ∧ step w1 (TimerFired (nextTimer w)) = Some w2
  ∧ calls w1 = calls w ++
      [ConsoleError ["Error connecting to peer:"; error];
       SetTimeout self 3000]
  ∧ calls w2 = calls w1 ++
      (if truthy (closed_currentPeerId self)
       then [DisconnectFromPeer (default "" (closed_currentPeerId self))]
       else []) ++ [ConnectToRandomUser]
  ∧ mounted w2 = true
  ∧ peerRequests w2 !! nextRequest w = Some self
  ∧ nextRequest w2 = S (nextRequest w)
  ∧ messages (state w2) = []
  ∧ currentPeerId (state w2) = None
  ∧ remoteStream (state w2) = None.
Proof.
  intros Hm Hrid w1 w2.
  assert (step w (PeerRejected rid error) = Some w1) as Hs1.
  { unfold step. rewrite Hm, Hrid. reflexivity. }
  assert (mounted w1 = true) as Hm1.
  { clear Hs1 Hrid. subst w2 w1. by handler. }
  assert (timers w1 !! nextTimer w = Some self) as Htm.
  { clear Hs1 Hrid Hm1. subst w2 w1. handler. apply lookup_insert_eq. }
  assert (step w1 (TimerFired (nextTimer w)) = Some w2) as Hs2.
  { unfold step. rewrite Hm1, Htm. reflexivity. }
  split_and!; [done | done | ..];
    clear Hs1 Hs2 Hm1 Htm Hrid; subst w2 w1; destruct self as [pid].
  all: handler; rewrite <- ?app_assoc; try done.
  all: apply lookup_insert_eq.
Qed.




Lemma step_requestsNumbered (w : World) (e : Event) (w' : World) :
  requestsNumbered w → step w e = Some w' → requestsNumbered w'.
Proof.
  intros Hinv. unfold requestsNumbered in *. step_cases.
  all: handler.
  all: intros r [cb Hc].
  all: repeat first
         [ rewrite lookup_insert in Hc; case_decide; [subst; lia |]
         | apply lookup_delete_Some in Hc as [_ Hc] ].
  all: specialize (Hinv r (mk_is_Some _ _ Hc)); lia.
Qed.

Lemma reachable_requestsNumbered (w : World) :
  reachable w → requestsNumbered w.
Proof.
  intros [es Hrun].
  assert (requestsNumbered mountedWorld) as Hinit.
  { intros r [c Hc].
    change (peerRequests mountedWorld) with (∅ : gmap nat Callback) in Hc.
    by rewrite lookup_empty in Hc. }
  revert Hinit Hrun. generalize mountedWorld.
  induction es as [| e es IH]; intros w0 Hinv Hrun.
  - by injection Hrun as <-.
  - cbn [run] in Hrun. destruct (step w0 e) as [w1 |] eqn:Hs; [| discriminate].
    cbn [mbind option_bind] in Hrun. eauto using step_requestsNumbered.
Qed.

End EventLoop.

Section StaleResponses.

(** C1 as stated fails.  Request 0 is outstanding when the user skips,
    which starts request 1.  Request 1 resolves with peer "B"; request 0
    resolves later with peer "A", and "A" replaces "B" as the current
    peer id. *)
Lemma stale_peer_id_adopted :
  peerRequests seekingWorld !! 0 = Some (mkCallback None)
  ∧ (λ w, peerRequests w !! 0) <$> run seekingWorld [SkipClicked]
    = Some (Some (mkCallback None))
  ∧ (currentPeerId ∘ state) <$>
      run seekingWorld [SkipClicked; PeerFulfilled 1 "B" None]
    = Some (Some "B")
  ∧ (currentPeerId ∘ state) <$>
      run seekingWorld
        [SkipClicked; PeerFulfilled 1 "B" None; PeerFulfilled 0 "A" None]
    = Some (Some "A").
Proof. split_and!; reflexivity. Qed.

(** Only its own settlement takes a peer request off the outstanding
    ones. *)
Lemma step_keeps_request
    (w : World) (e : Event) (w' : World) (rid : nat) (self : Callback) :
  requestsNumbered w →
  peerRequests w !! rid = Some self →
  settles rid e = false →
  step w e = Some w' →
  peerRequests w' !! rid = Some self.
Proof.
  intros Hinv Hrid He Hs.
  pose proof (Hinv rid (mk_is_Some _ _ Hrid)) as Hlt. clear Hinv.
  revert Hs He Hrid Hlt. step_cases.
  all: cbn [settles]; intros He Hrid Hlt.
  all: try apply Nat.eqb_neq in He.
  all: handler.
  all: repeat first
         [ rewrite lookup_insert_ne by lia
         | rewrite lookup_delete_ne by done ].
  all: done.
Qed.

Lemma run_keeps_request
    (es : list Event) (w w' : World) (rid : nat) (self : Callback) :
  requestsNumbered w →
  peerRequests w !! rid = Some self →
  Forall (λ e, settles rid e = false) es →
  run w es = Some w' →
  peerRequests w' !! rid = Some self.
Proof.
  revert w. induction es as [| e es IH]; intros w Hinv Hrid Hes Hrun.
  - by injection Hrun as <-.
  - cbn [run] in Hrun. destruct (step w e) as [w1 |] eqn:Hs; [| discriminate].
    cbn [mbind option_bind] in Hrun.
    apply Forall_cons in Hes as [He Hes].
    apply (IH w1); [| | done | done].
    + by apply (step_requestsNumbered w e).
    + by apply (step_keeps_request w e).
Qed.

(** C1 as amended.  A skip does not cancel a request that is
    outstanding: the request stays outstanding next to the new one, and
    through every later event that does not settle it, the settlement of
    the new request among them.  When it resolves, at whatever point
    while the component is mounted, its peer id becomes the current peer
    id, whatever the current peer id was; the other requests stay as
    they are. *)
Theorem late_peer_id_adopted
    (w : World) (rid : nat) (self : Callback) (w1 : World)
    (es : list Event) (w2 : World)
    (peerId : string) (remote : option MediaStream) :
  reachable w →
  peerRequests w !! rid = Some self →
  step w SkipClicked = Some w1 →
  Forall (λ e, settles rid e = false) es →
  run w1 es = Some w2 →
  mounted w2 = true →
  peerRequests w1 !! rid = Some self
  ∧ peerRequests w1 !! nextRequest w
    = Some (mkCallback (currentPeerId (state w)))
  ∧ rid ≠ nextRequest w
  ∧ peerRequests w2 !! rid = Some self
  ∧ ∃ w3, step w2 (PeerFulfilled rid peerId remote) = Some w3
          ∧ currentPeerId (state w3) = Some peerId
          ∧ peerRequests w3 !! rid = None
          ∧ ∀ r, r ≠ rid → peerRequests w3 !! r = peerRequests w2 !! r.
Proof.
  intros Hreach Hrid Hs Hes Hrun Hm2.
  pose proof (reachable_requestsNumbered w Hreach) as Hnum.
  assert (rid ≠ nextRequest w) as Hne.
  { pose proof (Hnum rid (mk_is_Some _ _ Hrid)). lia. }
  pose proof (step_requestsNumbered w SkipClicked w1 Hnum Hs) as Hnum1.
  pose proof (step_keeps_request w SkipClicked w1 rid self Hnum Hrid eq_refl Hs)
    as Hrid1.
  pose proof (run_keeps_request es w1 w2 rid self Hnum1 Hrid1 Hes Hrun)
    as Hrid2.
  assert (peerRequests w1 !! nextRequest w
          = Some (mkCallback (currentPeerId (state w)))) as Hnew.
  { clear - Hs. unfold step in Hs. destruct (mounted w); [| discriminate].
    cbn [negb] in Hs. apply (inj Some) in Hs. subst w1.
    handler; by rewrite lookup_insert_eq. }
  split_and!; try done.
  exists (exec (settleRequest rid;; findNewPeer_fulfilled self peerId remote)
            w2).
  split.
  { unfold step. rewrite Hm2, Hrid2. reflexivity. }
  clear. split_and!.
  - by handler.
  - handler; apply lookup_delete_eq.
  - intros r Hr. handler; by rewrite lookup_delete_ne.
Qed.

Lemma late_peer_id_witness :
  let w1 := exec handleSkip seekingWorld in
  let es := [PeerFulfilled 1 "B" (Some (mkStream "remote-B"))] in
  let w2 := default mountedWorld (run w1 es) in
  reachable seekingWorld
  ∧ peerRequests seekingWorld !! 0 = Some (mkCallback None)
  ∧ step seekingWorld SkipClicked = Some w1
  ∧ Forall (λ e, settles 0 e = false) es
  ∧ run w1 es = Some w2
  ∧ mounted w2 = true
  ∧ currentPeerId (state w2) = Some "B"
  ∧ peerRequests w1 !! 0 = Some (mkCallback None)
  ∧ peerRequests w1 !! nextRequest seekingWorld
    = Some (mkCallback (currentPeerId (state seekingWorld)))
  ∧ 0 ≠ nextRequest seekingWorld
  ∧ peerRequests w2 !! 0 = Some (mkCallback None)
  ∧ ∃ w3, step w2 (PeerFulfilled 0 "A" None) = Some w3
          ∧ currentPeerId (state w3) = Some "A"
          ∧ peerRequests w3 !! 0 = None
          ∧ ∀ r, r ≠ 0 → peerRequests w3 !! r = peerRequests w2 !! r.
Proof.
  intros w1 es w2.
  assert (reachable seekingWorld) as Hreach.
  { exists [LocalStreamFulfilled (mkStream "local")]. vm_compute. reflexivity. }
  assert (peerRequests seekingWorld !! 0 = Some (mkCallback None)) as Hrid
    by (vm_compute; reflexivity).
  assert (step seekingWorld SkipClicked = Some w1)
    as Hs by (vm_compute; reflexivity).
  assert (Forall (λ e, settles 0 e = false) es) as Hes
    by (apply Forall_singleton; reflexivity).
  assert (run w1 es = Some w2) as Hrun by (vm_compute; reflexivity).
  assert (mounted w2 = true) as Hm2 by (vm_compute; reflexivity).
  split; [exact Hreach |]. split; [exact Hrid |]. split; [exact Hs |].
  split; [exact Hes |]. split; [exact Hrun |]. split; [exact Hm2 |].
  split; [vm_compute; reflexivity |].
  exact (late_peer_id_adopted seekingWorld 0 (mkCallback None) w1 es w2
           "A" None Hreach Hrid Hs Hes Hrun Hm2).
Defined.

End StaleResponses.

Section MessageList.

(** C2 as stated fails: the list is non-empty outside [Connected].  A
    chat message from the peer just skipped arrives after [findNewPeer]
    has reset the state; a chat message arrives while the first peer
    request is outstanding; a chat message arrives once a peer is
    acquired but its stream is not there yet ([Connecting]); a chat
    message arrives after the connection has failed. *)
Lemma messages_outside_connected :
  (λ w, (messages (state w), lifecycle (state w))) <$>
    run seekingWorld
      [PeerFulfilled 0 "A" (Some (mkStream "remote"));
       SkipClicked;
       MessageReceived "A" (mkPayload "chat" "bye") 9]
  = Some ([mkMessage 0 stranger "bye" 9], Unpaired)
  ∧ (λ w, (messages (state w), lifecycle (state w))) <$>
      run seekingWorld [MessageReceived "A" (mkPayload "chat" "hi") 3]
    = Some ([mkMessage 0 stranger "hi" 3], Unpaired)
  ∧ (λ w, (messages (state w), lifecycle (state w))) <$>
      run seekingWorld
        [PeerFulfilled 0 "A" None;
         MessageReceived "A" (mkPayload "chat" "hi") 3]
    = Some ([mkMessage 0 stranger "hi" 3], Connecting)
  ∧ (λ w, (messages (state w), lifecycle (state w))) <$>
      run seekingWorld
        [PeerFulfilled 0 "A" (Some (mkStream "remote"));
         ConnectionStateChanged "A" "failed";
         MessageReceived "A" (mkPayload "chat" "hi") 3]
    = Some ([mkMessage 0 stranger "hi" 3], Unpaired).
Proof. split_and!; vm_compute; reflexivity. Qed.

(** C2 as amended.  Every event that enters [SeekingPeer] (media
    acquired, skip, retry timer: the callers of [findNewPeer]) leaves the
    message list empty, no peer acquired and a peer request outstanding.
    The list is not tied to [Connected]: a chat message is appended in
    whatever world [w2] the mounted component is, and the lifecycle
    state stays what it was; so it is right after [SeekingPeer] was
    entered. *)
Theorem messages_empty_on_seeking
    (w : World) (e : Event) (w' : World)
    (peerId : string) (data : Payload) (now : Z) (w2 : World) :
  step w e = Some w' →
  entersSeekingPeer e = true →
  data_type data = "chat" →
  mounted w2 = true →
  messages (state w') = []
  ∧ lifecycle (state w') = Unpaired
  ∧ is_Some (peerRequests w' !! nextRequest w)
  ∧ (∃ w'', step w' (MessageReceived peerId data now) = Some w''
            ∧ messages (state w'')
              = [mkMessage (nextUuid w') stranger (data_text data) now]
            ∧ lifecycle (state w'') = Unpaired)
  ∧ ∃ w3, step w2 (MessageReceived peerId data now) = Some w3
          ∧ messages (state w3)
            = messages (state w2)
              ++ [mkMessage (nextUuid w2) stranger (data_text data) now]
          ∧ lifecycle (state w3) = lifecycle (state w2).
Proof.
  intros Hs He Hty Hm2. apply String.eqb_eq in Hty.
  assert (mounted w' = true ∧ messages (state w') = []
          ∧ currentPeerId (state w') = None
          ∧ is_Some (peerRequests w' !! nextRequest w))
    as (Hm' & Hms & Hpid & Hreq).
  { revert Hs. step_cases; try discriminate He.
    all: handler.
    all: split_and!; try done.
    all: rewrite lookup_insert_eq; by eexists. }
  assert (lifecycle (state w') = Unpaired) as Hlc.
  { unfold lifecycle. by rewrite Hpid. }
  assert (∀ v : World,
            mounted v = true →
            ∃ v', step v (MessageReceived peerId data now) = Some v'
                  ∧ messages (state v')
                    = messages (state v)
                      ++ [mkMessage (nextUuid v) stranger (data_text data) now]
                  ∧ lifecycle (state v') = lifecycle (state v)) as Happend.
  { clear - Hty. intros v Hv.
    exists (exec (onMessage peerId data now) v). split.
    { unfold step. rewrite Hv. reflexivity. }
    clear Hv. unfold lifecycle, onMessage. rewrite Hty. by handler. }
  split_and!; try done.
  - destruct (Happend w' Hm') as (w'' & Hstep & Hlist & Hsame).
    exists w''. rewrite Hlist, Hsame, Hms, Hlc. done.
  - by apply Happend.
Qed.

Lemma messages_empty_on_seeking_witness :
  let w' := exec handleSkip seekingWorld in
  let w2 :=
    default mountedWorld
      (run seekingWorld
         [PeerFulfilled 0 "A" (Some (mkStream "remote"));
          MessageReceived "A" (mkPayload "chat" "hello") 2]) in
  step seekingWorld SkipClicked = Some w'
  ∧ entersSeekingPeer SkipClicked = true
  ∧ data_type (mkPayload "chat" "hi") = "chat"
  ∧ mounted w2 = true
  ∧ lifecycle (state w2) = Connected
  ∧ messages (state w2) = [mkMessage 0 stranger "hello" 2]
  ∧ messages (state w') = []
  ∧ lifecycle (state w') = Unpaired
  ∧ is_Some (peerRequests w' !! nextRequest seekingWorld)
  ∧ (∃ w'', step w' (MessageReceived "peer-1" (mkPayload "chat" "hi") 5)
            = Some w''
            ∧ messages (state w'')
              = [mkMessage (nextUuid w') stranger
                   (data_text (mkPayload "chat" "hi")) 5]
            ∧ lifecycle (state w'') = Unpaired)
  ∧ ∃ w3, step w2 (MessageReceived "peer-1" (mkPayload "chat" "hi") 5)
          = Some w3
          ∧ messages (state w3)
            = messages (state w2)
              ++ [mkMessage (nextUuid w2) stranger
                    (data_text (mkPayload "chat" "hi")) 5]
          ∧ lifecycle (state w3) = lifecycle (state w2).
Proof.
  intros w' w2.
  assert (step seekingWorld SkipClicked = Some w')
    as Hs by (vm_compute; reflexivity).
  assert (mounted w2 = true) as Hm2 by (vm_compute; reflexivity).
  split; [exact Hs |]. split; [reflexivity |]. split; [reflexivity |].
  split; [exact Hm2 |].
  split; [vm_compute; reflexivity |]. split; [vm_compute; reflexivity |].
  exact (messages_empty_on_seeking seekingWorld SkipClicked w'
           "peer-1" (mkPayload "chat" "hi") 5 w2 Hs eq_refl eq_refl Hm2).
Defined.

End MessageList.

(** * Further properties *)

(** ** The visitor counter over several sessions *)

Section VisitorSessions.

Lemma visit_counts (more : nat) (b : Browser) (n : Z) :
  currentCount (localStorage b) = Num n →
  currentCount (localStorage (visit more b).1) = Num (n + 1)
  ∧ (visit more b).2 = replicate (S more) (Num (n + 1)).
Proof.
  intros Hn. unfold visit. cbn [mounts].
  rewrite (mount_uncounted (new_session b)) by reflexivity.
  cbn [new_session localStorage sessionStorage]. rewrite Hn. cbn [add].
  rewrite mounts_counted by apply counted_marked.
  cbn [fst snd localStorage]. rewrite currentCount_stored. done.
Qed.

(** X1. Starting from a persisted count [n], after any number of browsing
    sessions, each with at least one mount, the persisted count is [n]
    plus the number of sessions, however often the component mounted in
    each. *)
Theorem count_is_number_of_sessions
    (sessions : list nat) (b : Browser) (n : Z) :
  currentCount (localStorage b) = Num n →
  (- MAX_SAFE_INTEGER ≤ n ∧ n + Z.of_nat (length sessions) ≤ MAX_SAFE_INTEGER)%Z →
  currentCount (localStorage (visits sessions b))
  = Num (n + Z.of_nat (length sessions)).
Proof.
  intros Hn _. revert b n Hn.
  induction sessions as [| more rest IH]; intros b n Hn.
  - cbn [visits length]. rewrite Hn. f_equal. lia.
  - cbn [visits]. destruct (visit_counts more b n Hn) as [Hnext _].
    rewrite (IH _ _ Hnext). f_equal. cbn [length]. lia.
Qed.

Lemma count_is_number_of_sessions_witness :
  currentCount (localStorage (mkBrowser ∅ ∅)) = Num 0
  ∧ currentCount (localStorage (visits [0; 2; 1] (mkBrowser ∅ ∅)))
    = Num (0 + Z.of_nat (length [0; 2; 1])).
Proof.
  split; [reflexivity |].
  apply (count_is_number_of_sessions [0; 2; 1] (mkBrowser ∅ ∅) 0);
    [reflexivity | unfold MAX_SAFE_INTEGER; simpl; lia].
Defined.

Lemma currentCount_NaN_stored (ls : gmap string string) :
  currentCount (<["visitor-count" := "NaN"]> ls) = NaN.
Proof. unfold currentCount. by rewrite lookup_insert_eq. Qed.

Lemma mount_corrupt (b : Browser) :
  currentCount (localStorage b) = NaN →
  (mount b).2 = NaN ∧ currentCount (localStorage (mount b).1) = NaN.
Proof.
  intros Hn. destruct (counted (sessionStorage b)) eqn:Hc.
  - by rewrite (mount_counted b Hc).
  - rewrite (mount_uncounted b Hc), Hn. cbn [add toString fst snd localStorage].
    split; [done | apply currentCount_NaN_stored].
Qed.

Lemma mounts_corrupt (k : nat) (b : Browser) :
  currentCount (localStorage b) = NaN →
  (mounts k b).2 = replicate k NaN
  ∧ currentCount (localStorage (mounts k b).1) = NaN.
Proof.
  revert b. induction k as [| k IH]; intros b Hn; [done |].
  destruct (mount_corrupt b Hn) as [Hshown Hnext].
  cbn [mounts]. destruct (mount b) as [b1 shown]. cbn [fst snd] in *.
  destruct (IH b1 Hnext) as [Hrest Hlast].
  destruct (mounts k b1) as [b2 rest]. cbn [fst snd] in *.
  by rewrite Hshown, Hrest.
Qed.

Lemma mount_stores_NaN (b : Browser) :
  currentCount (localStorage b) = NaN →
  counted (sessionStorage b) = false →
  localStorage (mount b).1 !! "visitor-count" = Some "NaN".
Proof.
  intros Hn Hc. rewrite (mount_uncounted b Hc), Hn.
  cbn [add toString fst localStorage]. apply lookup_insert_eq.
Qed.

Lemma mount_keeps_NaN (b : Browser) :
  localStorage b !! "visitor-count" = Some "NaN" →
  localStorage (mount b).1 !! "visitor-count" = Some "NaN".
Proof.
  intros Hst.
  assert (currentCount (localStorage b) = NaN) as Hn.
  { unfold currentCount. by rewrite Hst. }
  destruct (counted (sessionStorage b)) eqn:Hc.
  - by rewrite (mount_counted b Hc).
  - by apply mount_stores_NaN.
Qed.

Lemma mounts_keep_NaN (k : nat) (b : Browser) :
  localStorage b !! "visitor-count" = Some "NaN" →
  localStorage (mounts k b).1 !! "visitor-count" = Some "NaN".
Proof.
  revert b. induction k as [| k IH]; intros b Hst; [done |].
  cbn [mounts]. pose proof (mount_keeps_NaN b Hst) as Hnext.
  destruct (mount b) as [b1 shown]. cbn [fst] in Hnext.
  specialize (IH b1 Hnext). destruct (mounts k b1) as [b2 rest]. done.
Qed.

Lemma visit_stores_NaN (more : nat) (b : Browser) :
  currentCount (localStorage b) = NaN →
  localStorage (visit more b).1 !! "visitor-count" = Some "NaN".
Proof.
  intros Hn. unfold visit. cbn [mounts].
  pose proof (mount_stores_NaN (new_session b) Hn eq_refl) as Hfirst.
  destruct (mount (new_session b)) as [b1 shown]. cbn [fst] in Hfirst.
  pose proof (mounts_keep_NaN more b1 Hfirst) as Hrest.
  destruct (mounts more b1) as [b2 rest]. done.
Qed.

Lemma visits_keep_NaN (sessions : list nat) (b : Browser) :
  localStorage b !! "visitor-count" = Some "NaN" →
  localStorage (visits sessions b) !! "visitor-count" = Some "NaN".
Proof.
  revert b. induction sessions as [| more rest IH]; intros b Hst; [done |].
  cbn [visits]. apply IH. unfold visit. by apply mounts_keep_NaN.
Qed.

(** X2. When the stored count does not read as a number ([parseInt] gives
    [NaN]), the counter never recovers: the first mount of a session not
    counted yet stores the text "NaN", that text is what the store holds
    after every later session, and every mount, in this and in every
    later session, shows [NaN]. *)
Theorem corrupt_count_never_recovers
    (sessions : list nat) (k : nat) (b : Browser) :
  currentCount (localStorage b) = NaN →
  currentCount (localStorage (visits sessions b)) = NaN
  ∧ (mounts k (visits sessions b)).2 = replicate k NaN
  ∧ (mounts k (new_session (visits sessions b))).2 = replicate k NaN
  ∧ (counted (sessionStorage b) = false →
     localStorage (mount b).1 !! "visitor-count" = Some "NaN")
  ∧ (sessions ≠ [] →
     localStorage (visits sessions b) !! "visitor-count" = Some "NaN").
Proof.
  intros Hn.
  assert (currentCount (localStorage (visits sessions b)) = NaN) as Hend.
  { revert b Hn. induction sessions as [| more rest IH]; intros b Hn; [done |].
    cbn [visits]. apply IH. unfold visit.
    by apply (mounts_corrupt (S more) (new_session b)). }
  split_and!.
  - done.
  - by apply mounts_corrupt.
  - by apply (mounts_corrupt k (new_session (visits sessions b))).
  - by apply mount_stores_NaN.
  - destruct sessions as [| more rest]; [done |]. intros _.
    cbn [visits]. apply visits_keep_NaN. by apply visit_stores_NaN.
Qed.

Lemma corrupt_count_witness :
  currentCount (localStorage (mkBrowser {["visitor-count" := "abc"]} ∅)) = NaN
  ∧ currentCount
      (localStorage (visits [1; 0] (mkBrowser {["visitor-count" := "abc"]} ∅)))
    = NaN
  ∧ (mounts 2 (visits [1; 0] (mkBrowser {["visitor-count" := "abc"]} ∅))).2
    = replicate 2 NaN
  ∧ (mounts 2 (new_session
                 (visits [1; 0] (mkBrowser {["visitor-count" := "abc"]} ∅)))).2
    = replicate 2 NaN
  ∧ (counted (sessionStorage (mkBrowser {["visitor-count" := "abc"]} ∅))
     = false →
     localStorage (mount (mkBrowser {["visitor-count" := "abc"]} ∅)).1
       !! "visitor-count" = Some "NaN")
  ∧ ([1; 0] ≠ [] →
     localStorage (visits [1; 0] (mkBrowser {["visitor-count" := "abc"]} ∅))
       !! "visitor-count" = Some "NaN").
Proof.
  split; [vm_compute; reflexivity |].
  apply (corrupt_count_never_recovers [1; 0] 2
           (mkBrowser {["visitor-count" := "abc"]} ∅)).
  vm_compute. reflexivity.
Defined.

(** X3. A mount writes to no key but ['visitor-count'] in local storage
    and ['counted-visit'] in session storage, and after it the session is
    marked as counted, whatever it was before. *)
Theorem mount_touches_two_keys (b : Browser) (k1 k2 : string) :
  k1 ≠ "visitor-count" →
  k2 ≠ "counted-visit" →
  localStorage (mount b).1 !! k1 = localStorage b !! k1
  ∧ sessionStorage (mount b).1 !! k2 = sessionStorage b !! k2
  ∧ counted (sessionStorage (mount b).1) = true.
Proof.
  intros Hk1 Hk2. destruct (counted (sessionStorage b)) eqn:Hc.
  - by rewrite (mount_counted b Hc).
  - rewrite (mount_uncounted b Hc). cbn [fst localStorage sessionStorage].
    rewrite !lookup_insert_ne by done. split_and!; [done.. |].
    apply counted_marked.
Qed.

Lemma mount_touches_two_keys_witness :
  "theme" ≠ "visitor-count"
  ∧ "token" ≠ "counted-visit"
  ∧ localStorage (mount (mkBrowser {["theme" := "dark"]} {["token" := "t"]})).1
      !! "theme"
    = localStorage (mkBrowser {["theme" := "dark"]} {["token" := "t"]}) !! "theme"
  ∧ sessionStorage (mount (mkBrowser {["theme" := "dark"]} {["token" := "t"]})).1
      !! "token"
    = sessionStorage (mkBrowser {["theme" := "dark"]} {["token" := "t"]}) !! "token"
  ∧ counted
      (sessionStorage
         (mount (mkBrowser {["theme" := "dark"]} {["token" := "t"]})).1)
    = true.
Proof.
  split; [discriminate |]. split; [discriminate |].
  apply (mount_touches_two_keys
           (mkBrowser {["theme" := "dark"]} {["token" := "t"]}) "theme" "token");
    discriminate.
Defined.

End VisitorSessions.

(** ** The video surface *)

Section VideoSurface.
Import VideoContainer.

Lemma render_bound (p : Props) (i : Instance) :
  i = initialInstance
  ∨ (∃ q, effectDeps i = Some (stream q) ∧ videoRef i = bound (stream q)) →
  effectDeps (render p i) = Some (stream p)
  ∧ videoRef (render p i) = bound (stream p).
Proof.
  intros [-> | (q & Hdeps & Href)].
  - unfold render, commit, effect. cbn. by destruct (stream p).
  - unfold render, commit, effect. rewrite Hdeps, Href. cbn.
    case_bool_decide as Heq.
    + rewrite <- Heq. by destruct (stream q).
    + destruct (stream q), (stream p); done.
Qed.

Lemma renders_snoc (ps : list Props) (p : Props) (i : Instance) :
  renders (ps ++ [p]) i = render p (renders ps i).
Proof. revert i. induction ps as [| q ps IH]; intros i; [done | apply IH]. Qed.

Lemma renders_bound (ps : list Props) (i : Instance) :
  i = initialInstance
  ∨ (∃ q, effectDeps i = Some (stream q) ∧ videoRef i = bound (stream q)) →
  renders ps i = initialInstance
  ∨ (∃ q, effectDeps (renders ps i) = Some (stream q)
          ∧ videoRef (renders ps i) = bound (stream q)).
Proof.
  revert i. induction ps as [| p ps IH]; intros i Hi; [done |].
  cbn [renders]. apply IH. right. exists p. by apply render_bound.
Qed.

(** X4. After any sequence of renders the video surface shows the stream
    of the last render: with a stream, there is a [<video>] element and
    its [srcObject] is that stream; without one, there is no element (the
    placeholder is shown).  This holds although the effect only runs when
    [stream] changes. *)
Theorem video_shows_current_stream (ps : list Props) (p : Props) :
  let i := renders (ps ++ [p]) initialInstance in
  playing i = stream p
  ∧ videoRef i = match stream p with
                 | Some s => Some (Some s)
                 | None => None
                 end.
Proof.
  intros i. subst i. rewrite renders_snoc.
  destruct (render_bound p (renders ps initialInstance)) as [_ Href].
  { apply renders_bound. by left. }
  unfold playing. rewrite Href. by destruct (stream p).
Qed.

End VideoSurface.

(** ** Sending and receiving *)

Section Messaging.

Lemma truthy_nonempty (p : string) : p ≠ "" → truthy (Some p) = true.
Proof. intros Hp. unfold truthy. by apply String.eqb_neq in Hp as ->. Qed.

(** What [handleSendMessage] does with a peer id that is truthy. *)
Lemma send_with_peer_world (text : string) (now : Z) (w : World) (p : string) :
  currentPeerId (state w) = Some p →
  p ≠ "" →
  exec (handleSendMessage text now) w
  = mkWorld
      (mkState (localStream (state w)) (remoteStream (state w)) (Some p)
         (isMuted (state w)) (isVideoEnabled (state w)) (isChatOpen (state w))
         (messages (state w) ++ [mkMessage (nextUuid w) me text now])
         (connecting (state w)) (connectionStatus (state w)))
      (calls w ++ [SendMessage p (mkPayload "chat" text)])
      (localStreamPending w) (peerRequests w) (timers w)
      (nextRequest w) (nextTimer w) (S (nextUuid w)) (mounted w).
Proof.
  intros Hpid Hp. apply truthy_nonempty in Hp.
  open_worlds. subst. run_handlers. by rewrite Hp.
Qed.

(** X5. With an active peer [p], the send action appends one message to
    the list, from [me], with the text given and an id no message in the
    list has, and makes exactly one call: [sendMessage(p, { type: 'chat',
    text })]. *)
Theorem send_with_peer_appends
    (text : string) (now : Z) (w : World) (p : string) :
  reachable w →
  currentPeerId (state w) = Some p →
  p ≠ "" →
  let w' := exec (handleSendMessage text now) w in
  let newMessage := mkMessage (nextUuid w) me text now in
  messages (state w') = messages (state w) ++ [newMessage]
  ∧ (msg_id newMessage ∉ (msg_id <$> messages (state w)))
  ∧ NoDup (msg_id <$> messages (state w'))
  ∧ calls w' = calls w ++ [SendMessage p (mkPayload "chat" text)]
  ∧ currentPeerId (state w') = Some p
  ∧ (mounted w = true → step w (SendClicked text now) = Some w').
Proof.
  intros Hreach Hpid Hp w' newMessage.
  assert (mounted w = true → step w (SendClicked text now) = Some w') as Hstep.
  { intros Hm. unfold step. rewrite Hm. reflexivity. }
  destruct (reachable_idsDrawn w Hreach) as [Hlt Hnd].
  destruct (append_next_id (messages (state w)) newMessage (nextUuid w))
    as (Hfresh & _ & Hnd'); [done.. |].
  subst w'. rewrite (send_with_peer_world text now w p Hpid Hp) in *.
  by split_and!.
Qed.

Lemma send_with_peer_witness :
  let w := exec (settleRequest 0;;
                 findNewPeer_fulfilled (mkCallback None) "peer-1" None)
             seekingWorld in
  reachable w
  ∧ currentPeerId (state w) = Some "peer-1"
  ∧ "peer-1" ≠ ""
  ∧ let w' := exec (handleSendMessage "hello" 4) w in
    let newMessage := mkMessage (nextUuid w) me "hello" 4 in
    messages (state w') = messages (state w) ++ [newMessage]
    ∧ (msg_id newMessage ∉ (msg_id <$> messages (state w)))
    ∧ NoDup (msg_id <$> messages (state w'))
    ∧ calls w' = calls w ++ [SendMessage "peer-1" (mkPayload "chat" "hello")]
    ∧ currentPeerId (state w') = Some "peer-1"
    ∧ (mounted w = true → step w (SendClicked "hello" 4) = Some w').
Proof.
  intros w.
  assert (reachable w) as Hreach.
  { exists [LocalStreamFulfilled (mkStream "local");
            PeerFulfilled 0 "peer-1" None].
    vm_compute. reflexivity. }
  assert (currentPeerId (state w) = Some "peer-1") as Hpid
    by (vm_compute; reflexivity).
  split; [exact Hreach |]. split; [exact Hpid |]. split; [discriminate |].
  exact (send_with_peer_appends "hello" 4 w "peer-1" Hreach Hpid
           ltac:(discriminate)).
Defined.

(** X6. The send action changes something exactly when [currentPeerId] is
    truthy: with [null] and with the empty string alike it does nothing
    at all. *)
Theorem send_noop_iff_no_peer (text : string) (now : Z) (w : World) :
  exec (handleSendMessage text now) w = w
  ↔ truthy (currentPeerId (state w)) = false.
Proof.
  split.
  - intros Hnoop. destruct (currentPeerId (state w)) as [p |] eqn:Hpid;
      [| reflexivity].
    destruct (decide (p = "")) as [-> | Hp]; [reflexivity |].
    rewrite (send_with_peer_world text now w p Hpid Hp) in Hnoop.
    apply (f_equal (λ w, length (messages (state w)))) in Hnoop.
    cbn [state messages] in Hnoop. rewrite length_app in Hnoop.
    cbn [length] in Hnoop. lia.
  - intros Hfalsy. open_worlds. run_handlers. by rewrite Hfalsy.
Qed.

(** X7. What one controller sends, another running the same code takes
    in: the payload of the [sendMessage] call, handed to [onMessage] on
    the other side, is appended there with the same text, from
    [stranger]. *)
Theorem sent_message_is_received
    (text : string) (nowA nowB : Z) (wA wB : World) (pA pB : string) :
  currentPeerId (state wA) = Some pA →
  pA ≠ "" →
  ∃ data,
    last (calls (exec (handleSendMessage text nowA) wA))
    = Some (SendMessage pA data)
    ∧ messages (state (exec (onMessage pB data nowB) wB))
      = messages (state wB) ++ [mkMessage (nextUuid wB) stranger text nowB].
Proof.
  intros Hpid Hp. exists (mkPayload "chat" text). split.
  - rewrite (send_with_peer_world text nowA wA pA Hpid Hp). cbn [calls].
    apply last_snoc.
  - clear. by handler.
Qed.

Lemma sent_message_witness :
  let wA := exec (settleRequest 0;;
                  findNewPeer_fulfilled (mkCallback None) "bob" None)
              seekingWorld in
  currentPeerId (state wA) = Some "bob"
  ∧ "bob" ≠ ""
  ∧ ∃ data,
      last (calls (exec (handleSendMessage "hi" 1) wA))
      = Some (SendMessage "bob" data)
      ∧ messages (state (exec (onMessage "alice" data 2) seekingWorld))
        = messages (state seekingWorld)
          ++ [mkMessage (nextUuid seekingWorld) stranger "hi" 2].
Proof.
  intros wA.
  assert (currentPeerId (state wA) = Some "bob") as Hpid
    by (vm_compute; reflexivity).
  split; [exact Hpid |]. split; [discriminate |].
  exact (sent_message_is_received "hi" 1 2 wA seekingWorld "bob" "alice"
           Hpid ltac:(discriminate)).
Defined.

End Messaging.

(** ** Invariants of every run *)

Section Runs.

(** Induction over the runs from the mounted component. *)
Lemma reachable_invariant (P : World → Prop) :
  P mountedWorld →
  (∀ w e w', P w → step w e = Some w' → P w') →
  ∀ w, reachable w → P w.
Proof.
  intros Hinit Hstep w [es Hrun].
  revert Hinit Hrun. generalize mountedWorld.
  induction es as [| e es IH]; intros w0 Hw0 Hrun.
  - by injection Hrun as <-.
  - cbn [run] in Hrun. destruct (step w0 e) as [w1 |] eqn:Hs; [| discriminate].
    cbn [mbind option_bind] in Hrun. eauto.
Qed.

Lemma step_toggles (w : World) (e : Event) (w' : World) :
  audioEnabled (calls w) = negb (isMuted (state w))
  ∧ videoEnabled (calls w) = isVideoEnabled (state w) →
  step w e = Some w' →
  audioEnabled (calls w') = negb (isMuted (state w'))
  ∧ videoEnabled (calls w') = isVideoEnabled (state w').
Proof.
  intros [Ha Hv]. unfold audioEnabled, videoEnabled in *. step_cases.
  all: handler.
  all: rewrite ?fold_left_app; cbn [fold_left]; rewrite ?negb_involutive.
  all: by split.
Qed.

(** X8. In every run the display flags agree with what the service was
    last told: the audio track is enabled exactly when [isMuted] is false,
    the video track exactly when [isVideoEnabled] is true, whatever else
    happened in between (skips, retries, disconnections). *)
Theorem toggles_agree_with_service (w : World) :
  reachable w →
  audioEnabled (calls w) = negb (isMuted (state w))
  ∧ videoEnabled (calls w) = isVideoEnabled (state w).
Proof.
  revert w. apply reachable_invariant.
  - by vm_compute.
  - intros w e w'. apply step_toggles.
Qed.

Lemma toggles_agree_witness :
  let w := exec (handleToggleMute;; handleSkip;; handleToggleVideo)
             seekingWorld in
  reachable w
  ∧ audioEnabled (calls w) = negb (isMuted (state w))
  ∧ videoEnabled (calls w) = isVideoEnabled (state w).
Proof.
  intros w.
  assert (reachable w) as Hreach.
  { exists [LocalStreamFulfilled (mkStream "local");
            MuteClicked; SkipClicked; VideoClicked].
    vm_compute. reflexivity. }
  split; [exact Hreach |]. exact (toggles_agree_with_service w Hreach).
Defined.

Lemma step_counts (w : World) (e : Event) (w' : World) :
  step w e = Some w' →
  timeoutDelays (calls w')
  = timeoutDelays (calls w) ++ (if isPeerRejected e then [3000%Z] else [])
  ∧ countCalls isConnectToRandomUser (calls w')
    = countCalls isConnectToRandomUser (calls w)
      + (if entersSeekingPeer e then 1 else 0)
  ∧ List.filter isMountCall (calls w') = List.filter isMountCall (calls w).
Proof.
  step_cases.
  all: handler.
  all: unfold countCalls;
       rewrite ?timeoutDelays_app, ?List.filter_app, ?length_app;
       cbn; rewrite ?app_nil_r.
  all: split_and!; try done; lia.
Qed.

Lemma run_counts (es : list Event) (w w' : World) :
  run w es = Some w' →
  timeoutDelays (calls w')
  = timeoutDelays (calls w) ++ replicate (countEvents isPeerRejected es) 3000%Z
  ∧ countCalls isConnectToRandomUser (calls w')
    = countCalls isConnectToRandomUser (calls w)
      + countEvents entersSeekingPeer es
  ∧ List.filter isMountCall (calls w') = List.filter isMountCall (calls w).
Proof.
  revert w. induction es as [| e es IH]; intros w Hrun.
  - injection Hrun as <-. cbn. by rewrite app_nil_r, Nat.add_0_r.
  - cbn [run] in Hrun. destruct (step w e) as [w1 |] eqn:Hs; [| discriminate].
    cbn [mbind option_bind] in Hrun.
    destruct (step_counts w e w1 Hs) as (Ht1 & Hc1 & Hm1).
    destruct (IH w1 Hrun) as (Ht & Hc & Hm).
    rewrite Ht, Hc, Hm, Ht1, Hc1, Hm1. unfold countEvents. cbn [List.filter].
    split_and!; [| | done].
    + destruct (isPeerRejected e); cbn; by rewrite <- ?app_assoc, ?app_nil_r.
    + destruct (entersSeekingPeer e); cbn; lia.
Qed.

(** X9. In every run from the mount, the controller sets exactly one
    timer per rejected peer request, each with a delay of 3000 ms, and
    asks for a peer exactly once per event that enters the peer-seeking
    cycle (media acquired, skip, timer fired): no timer without a
    failure, no request without one of these events. *)
Theorem timers_and_requests_counted (es : list Event) (w : World) :
  run mountedWorld es = Some w →
  timeoutDelays (calls w) = replicate (countEvents isPeerRejected es) 3000%Z
  ∧ countCalls isSetTimeout (calls w) = countEvents isPeerRejected es
  ∧ countCalls isConnectToRandomUser (calls w)
    = countEvents entersSeekingPeer es.
Proof.
  intros Hrun. destruct (run_counts es mountedWorld w Hrun) as (Ht & Hc & _).
  change (timeoutDelays (calls mountedWorld)) with (@nil Z) in Ht.
  change (countCalls isConnectToRandomUser (calls mountedWorld)) with 0 in Hc.
  cbn [app Nat.add] in Ht, Hc.
  split_and!; [done | | done].
  rewrite <- (length_replicate (countEvents isPeerRejected es) 3000%Z), <- Ht.
  clear. unfold countCalls, timeoutDelays.
  induction (calls w) as [| c cs IH]; [done |].
  destruct c; cbn; by rewrite ?IH.
Qed.

Lemma timers_and_requests_witness :
  let es := [LocalStreamFulfilled (mkStream "local"); PeerRejected 0 "busy";
             SkipClicked; TimerFired 0; PeerRejected 1 "busy"] in
  let w := default mountedWorld (run mountedWorld es) in
  run mountedWorld es = Some w
  ∧ timeoutDelays (calls w) = replicate (countEvents isPeerRejected es) 3000%Z
  ∧ countCalls isSetTimeout (calls w) = countEvents isPeerRejected es
  ∧ countCalls isConnectToRandomUser (calls w)
    = countEvents entersSeekingPeer es.
Proof.
  intros es w.
  assert (run mountedWorld es = Some w) as Hrun by (vm_compute; reflexivity).
  split; [exact Hrun |]. exact (timers_and_requests_counted es w Hrun).
Defined.

(** X10. The calls of the mount effect are made once and never again:
    in every run the trace holds exactly one [getLocalStream] call and one
    registration of each of the three listeners, in the order of the
    effect. *)
Theorem mount_calls_made_once (w : World) :
  reachable w →
  List.filter isMountCall (calls w)
  = [GetLocalStream; SubscribeMessage; SubscribeStream;
     SubscribeConnectionState].
Proof.
  intros [es Hrun]. destruct (run_counts es mountedWorld w Hrun) as (_ & _ & Hm).
  rewrite Hm. by vm_compute.
Qed.

Lemma mount_calls_witness :
  let w := exec (handleSkip;; handleToggleMute) seekingWorld in
  reachable w
  ∧ List.filter isMountCall (calls w)
    = [GetLocalStream; SubscribeMessage; SubscribeStream;
       SubscribeConnectionState].
Proof.
  intros w.
  assert (reachable w) as Hreach.
  { exists [LocalStreamFulfilled (mkStream "local"); SkipClicked; MuteClicked].
    vm_compute. reflexivity. }
  split; [exact Hreach |]. exact (mount_calls_made_once w Hreach).
Defined.

End Runs.

(** ** Streams and peers *)

Section StreamsAndPeers.

Lemma step_mediaAwaited (w : World) (e : Event) (w' : World) :
  mediaAwaited w → step w e = Some w' → mediaAwaited w'.
Proof.
  unfold mediaAwaited. intros Hinv. step_cases.
  all: handler.
  all: first [done | by intros; apply Hinv].
Qed.

Lemma step_localStream_kept (w : World) (e : Event) (w' : World) :
  localStreamPending w = false →
  step w e = Some w' →
  localStream (state w') = localStream (state w)
  ∧ localStreamPending w' = false.
Proof.
  intros Hlp. step_cases.
  all: try congruence.
  all: by handler.
Qed.

(** X11. Once the local stream is there it stays: no later event, in any
    run, replaces or clears it. *)
Theorem local_stream_kept
    (w : World) (s : MediaStream) (es : list Event) (w' : World) :
  reachable w →
  localStream (state w) = Some s →
  run w es = Some w' →
  localStream (state w') = Some s.
Proof.
  intros Hreach Hs Hrun.
  assert (mediaAwaited w) as Hinv.
  { clear Hs Hrun. revert w Hreach. apply reachable_invariant.
    - by intros _.
    - intros w0 e w1. apply step_mediaAwaited. }
  assert (localStreamPending w = false) as Hlp.
  { destruct (localStreamPending w) eqn:Hlp; [| done].
    rewrite (Hinv Hlp) in Hs. discriminate. }
  clear Hreach Hinv. revert w Hs Hlp Hrun.
  induction es as [| e es IH]; intros w Hs Hlp Hrun.
  - by injection Hrun as <-.
  - cbn [run] in Hrun. destruct (step w e) as [w1 |] eqn:Hstep; [| discriminate].
    cbn [mbind option_bind] in Hrun.
    destruct (step_localStream_kept w e w1 Hlp Hstep) as [Hkept Hlp1].
    apply (IH w1); [by rewrite Hkept | done | done].
Qed.

Lemma local_stream_kept_witness :
  let es := [SkipClicked; PeerFulfilled 0 "peer-1" None;
             ConnectionStateChanged "peer-1" "failed"; SkipClicked] in
  let w' := default mountedWorld (run seekingWorld es) in
  reachable seekingWorld
  ∧ localStream (state seekingWorld) = Some (mkStream "local")
  ∧ run seekingWorld es = Some w'
  ∧ localStream (state w') = Some (mkStream "local").
Proof.
  intros es w'.
  assert (reachable seekingWorld) as Hreach.
  { exists [LocalStreamFulfilled (mkStream "local")]. vm_compute. reflexivity. }
  assert (localStream (state seekingWorld) = Some (mkStream "local")) as Hs
    by (vm_compute; reflexivity).
  assert (run seekingWorld es = Some w') as Hrun by (vm_compute; reflexivity).
  split; [exact Hreach |]. split; [exact Hs |]. split; [exact Hrun |].
  exact (local_stream_kept seekingWorld (mkStream "local") es w'
           Hreach Hs Hrun).
Defined.

Lemma adopted_snoc (p : string) (cs : list Call) (c : Call) :
  adopted p cs → adopted p (cs ++ [c]).
Proof. unfold adopted. set_solver. Qed.

Lemma actsOnKnownPeers_snoc (cs : list Call) (c : Call) :
  actsOnKnownPeers cs →
  (∀ p, c = DisconnectFromPeer p ∨ (∃ data, c = SendMessage p data) →
        adopted p cs) →
  actsOnKnownPeers (cs ++ [c]).
Proof.
  intros Hcs Hc pre c' post p Heq Hc'.
  destruct post as [| c0 post0 _] using rev_ind.
  - apply app_inj_tail in Heq as [-> ->]. by apply Hc.
  - rewrite app_comm_cons, app_assoc in Heq.
    apply app_inj_tail in Heq as [Heq _]. by apply (Hcs pre c' post0 p).
Qed.

Lemma step_peersKnown (w : World) (e : Event) (w' : World) :
  peersKnown w → step w e = Some w' → peersKnown w'.
Proof.
  intros (Hcur & Hreq & Htim & Hacts). unfold peersKnown. step_cases.
  all: repeat match goal with c : Callback |- _ => destruct c end.
  all: handler.
  all: repeat match goal with
         | H : truthy ?o = true |- _ =>
             is_var o; destruct o; [| discriminate H]
         | H : negb (truthy ?o) = false |- _ =>
             is_var o; destruct o; [| discriminate H]
         end.
  all: cbn [default from_option id].
  all: split_and!.
  all: lazymatch goal with
       | |- actsOnKnownPeers _ =>
           repeat (apply actsOnKnownPeers_snoc;
                   [| intros ? [Hc | [? Hc]]; try discriminate Hc])
       | |- _ =>
           first
             [ intros ? ? ? Hlook Hclosed;
               repeat first
                 [ apply lookup_insert_Some in Hlook as [[_ <-] | [_ Hlook]]
                 | apply lookup_delete_Some in Hlook as [_ Hlook] ];
               cbn [closed_currentPeerId] in Hclosed
             | intros ? Hp ]
       end.
  all: repeat match goal with
         | H : Some _ = Some _ |- _ => injection H as ?
         | H : mkCallback _ = mkCallback _ |- _ => injection H as ?
         | H : DisconnectFromPeer _ = DisconnectFromPeer _ |- _ =>
             injection H as ?
         | H : SendMessage _ _ = SendMessage _ _ |- _ => injection H as ? ?
         end.
  all: subst; try done.
  all: unfold adopted in *; rewrite <- ?app_assoc; cbn [app].
  all: rewrite ?elem_of_app.
  all: eauto 6 using list_elem_of_here, list_elem_of_further.
Qed.

(** X12. The component only ever acts on peers it was given: in every
    run, each [disconnectFromPeer(p)] and each [sendMessage(p, ...)] call
    is preceded in the trace by the [getRemoteStream(p)] call that
    [findNewPeer] makes when a peer request resolves with [p]; and the
    current peer id, when set, is such a [p]. *)
Theorem acts_on_known_peers_only (w : World) :
  reachable w →
  actsOnKnownPeers (calls w)
  ∧ (∀ p, currentPeerId (state w) = Some p → adopted p (calls w)).
Proof.
  intros Hreach.
  assert (peersKnown w) as (Hcur & _ & _ & Hacts); [| done].
  revert w Hreach. apply reachable_invariant.
  - split_and!.
    + intros p Hp. by vm_compute in Hp.
    + intros rid self p Hlook.
      change (peerRequests mountedWorld) with (∅ : gmap nat Callback) in Hlook.
      by rewrite lookup_empty in Hlook.
    + intros tid self p Hlook.
      change (timers mountedWorld) with (∅ : gmap nat Callback) in Hlook.
      by rewrite lookup_empty in Hlook.
    + intros pre c post p Heq Hc.
      assert (In c (calls mountedWorld)) as Hin
        by (rewrite Heq; apply in_elt).
      destruct Hc as [-> | [data ->]]; cbn in Hin;
        repeat (destruct Hin as [Hin | Hin]; [discriminate Hin |]);
        destruct Hin.
  - intros w0 e w1. apply step_peersKnown.
Qed.

Lemma acts_on_known_peers_witness :
  let es := [LocalStreamFulfilled (mkStream "local");
             PeerFulfilled 0 "peer-1" None; SendClicked "hi" 1; SkipClicked] in
  let w := default mountedWorld (run mountedWorld es) in
  reachable w
  ∧ actsOnKnownPeers (calls w)
  ∧ (∀ p, currentPeerId (state w) = Some p → adopted p (calls w)).
Proof.
  intros es w.
  assert (reachable w) as Hreach by (exists es; vm_compute; reflexivity).
  split; [exact Hreach |]. exact (acts_on_known_peers_only w Hreach).
Defined.

(** What [findNewPeer] does, for any instance, on any world. *)
Lemma findNewPeer_world (self : Callback) (w : World) :
  exec (findNewPeer self) w
  = mkWorld
      (mkState (localStream (state w)) None None (isMuted (state w))
         (isVideoEnabled (state w)) (isChatOpen (state w)) [] true
         "Looking for a partner...")
      (calls w
       ++ (if truthy (closed_currentPeerId self)
           then [DisconnectFromPeer (default "" (closed_currentPeerId self))]
           else [])
       ++ [ConnectToRandomUser])
      (localStreamPending w) (<[nextRequest w := self]> (peerRequests w))
      (timers w) (S (nextRequest w)) (nextTimer w) (nextUuid w) (mounted w).
Proof.
  destruct self as [pid]. handler; by rewrite <- ?app_assoc.
Qed.

(** X13. A retry timer runs the instance of [findNewPeer] that failed,
    with the peer id of the render that made it.  When the timer fires
    while another peer [p] is current, the session with [p] is dropped
    (peer id, remote stream and messages are cleared and a new peer is
    requested) but [disconnectFromPeer(p)] is not called. *)
Theorem stale_retry_drops_current_peer
    (w : World) (tid : nat) (self : Callback) (p : string) :
  mounted w = true →
  timers w !! tid = Some self →
  currentPeerId (state w) = Some p →
  closed_currentPeerId self ≠ Some p →
  ∃ w' new,
    step w (TimerFired tid) = Some w'
    ∧ currentPeerId (state w') = None
    ∧ remoteStream (state w') = None
    ∧ messages (state w') = []
    ∧ calls w' = calls w ++ new
    ∧ (DisconnectFromPeer p ∉ new)
    ∧ ConnectToRandomUser ∈ new
    ∧ peerRequests w' !! nextRequest w = Some self.
Proof.
  intros Hm Htm Hpid Hne.
  assert (step w (TimerFired tid)
          = Some (exec (findNewPeer self) (exec (clearTimer tid) w))) as Hs.
  { unfold step. rewrite Hm, Htm. reflexivity. }
  rewrite findNewPeer_world in Hs.
  change (calls (exec (clearTimer tid) w)) with (calls w) in Hs.
  change (nextRequest (exec (clearTimer tid) w)) with (nextRequest w) in Hs.
  eexists _,
    ((if truthy (closed_currentPeerId self)
      then [DisconnectFromPeer (default "" (closed_currentPeerId self))]
      else []) ++ [ConnectToRandomUser]).
  split; [exact Hs |].
  cbn [state calls peerRequests currentPeerId remoteStream messages].
  split_and!; try done.
  - intros Hin.
    destruct self as [[q |]];
      cbn [closed_currentPeerId truthy default from_option id] in *;
      [destruct (negb (q =? "")) |]; cbn [app] in Hin.
    all: repeat (apply elem_of_cons in Hin as [Hin | Hin];
                 [congruence |]).
    all: by apply elem_of_nil in Hin.
  - apply elem_of_app. right. apply list_elem_of_here.
  - apply lookup_insert_eq.
Qed.

Lemma stale_retry_witness :
  let es := [LocalStreamFulfilled (mkStream "local"); PeerRejected 0 "busy";
             SkipClicked;
             PeerFulfilled 1 "peer-B" (Some (mkStream "remote"))] in
  let w := default mountedWorld (run mountedWorld es) in
  run mountedWorld es = Some w
  ∧ mounted w = true
  ∧ timers w !! 0 = Some (mkCallback None)
  ∧ currentPeerId (state w) = Some "peer-B"
  ∧ closed_currentPeerId (mkCallback None) ≠ Some "peer-B"
  ∧ ∃ w' new,
      step w (TimerFired 0) = Some w'
      ∧ currentPeerId (state w') = None
      ∧ remoteStream (state w') = None
      ∧ messages (state w') = []
      ∧ calls w' = calls w ++ new
      ∧ (DisconnectFromPeer "peer-B" ∉ new)
      ∧ ConnectToRandomUser ∈ new
      ∧ peerRequests w' !! nextRequest w = Some (mkCallback None).
Proof.
  intros es w.
  assert (mounted w = true) as Hm by (vm_compute; reflexivity).
  assert (timers w !! 0 = Some (mkCallback None)) as Htm
    by (vm_compute; reflexivity).
  assert (currentPeerId (state w) = Some "peer-B") as Hpid
    by (vm_compute; reflexivity).
  split; [vm_compute; reflexivity |].
  split; [exact Hm |]. split; [exact Htm |]. split; [exact Hpid |].
  split; [discriminate |].
  exact (stale_retry_drops_current_peer w 0 (mkCallback None) "peer-B"
           Hm Htm Hpid ltac:(discriminate)).
Defined.

(** Two events in a row, the second one enabled after the first. *)
Lemma run_two (w w1 w2 : World) (e1 e2 : Event) :
  step w e1 = Some w1 → step w1 e2 = Some w2 → run w [e1; e2] = Some w2.
Proof. intros H1 H2. cbn [run]. rewrite H1. cbn. by rewrite H2. Qed.

(** X14. A peer request that resolves without a stream and the stream
    event of the peer may come in either order: both orders end in the
    same component state, [Connected], with the stream shown and the
    connecting flag down.  (In the second order [getRemoteStream] may
    return nothing or the stream just attached.) *)
Theorem stream_and_peer_commute
    (w : World) (rid : nat) (self : Callback) (p q : string)
    (s : MediaStream) (r : option MediaStream) :
  mounted w = true →
  peerRequests w !! rid = Some self →
  r = None ∨ r = Some s →
  ∃ wa wb,
    run w [PeerFulfilled rid p None; StreamReceived q s] = Some wa
    ∧ run w [StreamReceived q s; PeerFulfilled rid p r] = Some wb
    ∧ state wa = state wb
    ∧ lifecycle (state wa) = Connected
    ∧ currentPeerId (state wa) = Some p
    ∧ remoteStream (state wa) = Some s
    ∧ connecting (state wa) = false.
Proof.
  intros Hm Hrid Hr.
  set (wa1 := exec (settleRequest rid;; findNewPeer_fulfilled self p None) w).
  set (wb1 := exec (onStream q s) w).
  assert (step w (PeerFulfilled rid p None) = Some wa1) as Ha1.
  { unfold step. rewrite Hm, Hrid. reflexivity. }
  assert (step w (StreamReceived q s) = Some wb1) as Hb1.
  { unfold step. rewrite Hm. reflexivity. }
  assert (mounted wa1 = true) as Hma by (subst wa1 wb1; clear Ha1 Hb1; by handler).
  assert (mounted wb1 = true ∧ peerRequests wb1 !! rid = Some self)
    as [Hmb Hridb] by (subst wa1 wb1; clear Ha1 Hb1 Hma; by handler).
  exists (exec (onStream q s) wa1),
    (exec (settleRequest rid;; findNewPeer_fulfilled self p r) wb1).
  split.
  { apply (run_two w wa1); [done |]. unfold step. by rewrite Hma. }
  split.
  { apply (run_two w wb1); [done |]. unfold step. by rewrite Hmb, Hridb. }
  clear Ha1 Hb1 Hma Hmb Hridb Hrid Hm. subst wa1 wb1. unfold lifecycle.
  destruct Hr as [-> | ->]; by handler.
Qed.

Lemma stream_and_peer_witness :
  mounted seekingWorld = true
  ∧ peerRequests seekingWorld !! 0 = Some (mkCallback None)
  ∧ (Some (mkStream "remote") = None
     ∨ Some (mkStream "remote") = Some (mkStream "remote"))
  ∧ ∃ wa wb,
      run seekingWorld
        [PeerFulfilled 0 "peer-1" None;
         StreamReceived "peer-1" (mkStream "remote")] = Some wa
      ∧ run seekingWorld
          [StreamReceived "peer-1" (mkStream "remote");
           PeerFulfilled 0 "peer-1" (Some (mkStream "remote"))] = Some wb
      ∧ state wa = state wb
      ∧ lifecycle (state wa) = Connected
      ∧ currentPeerId (state wa) = Some "peer-1"
      ∧ remoteStream (state wa) = Some (mkStream "remote")
      ∧ connecting (state wa) = false.
Proof.
  assert (mounted seekingWorld = true) as Hm by (vm_compute; reflexivity).
  assert (peerRequests seekingWorld !! 0 = Some (mkCallback None)) as Hrid
    by (vm_compute; reflexivity).
  split; [exact Hm |]. split; [exact Hrid |]. split; [by right |].
  exact (stream_and_peer_commute seekingWorld 0 (mkCallback None)
           "peer-1" "peer-1" (mkStream "remote") (Some (mkStream "remote"))
           Hm Hrid (or_intror eq_refl)).
Defined.

(** X15. When the peer drops before its stream has arrived, the
    connecting flag is left up: the request is settled, nothing is in
    flight for it, and the overlay still says "Establishing
    connection..." with no peer, until the user skips. *)
Theorem drop_while_connecting_leaves_overlay
    (w : World) (rid : nat) (self : Callback) (p q st : string) :
  mounted w = true →
  peerRequests w !! rid = Some self →
  connecting (state w) = true →
  st = "disconnected" ∨ st = "failed" ∨ st = "closed" →
  ∃ w',
    run w [PeerFulfilled rid p None; ConnectionStateChanged q st] = Some w'
    ∧ currentPeerId (state w') = None
    ∧ connecting (state w') = true
    ∧ connectionStatus (state w') = "Establishing connection..."
    ∧ peerRequests w' = delete rid (peerRequests w)
    ∧ timers w' = timers w
    ∧ timeoutDelays (calls w') = timeoutDelays (calls w)
    ∧ countCalls isConnectToRandomUser (calls w')
      = countCalls isConnectToRandomUser (calls w).
Proof.
  intros Hm Hrid Hco Hst.
  assert (String.eqb st "disconnected" || String.eqb st "failed"
          || String.eqb st "closed" = true) as Hcond.
  { destruct Hst as [-> | [-> | ->]]; reflexivity. }
  set (w1 := exec (settleRequest rid;; findNewPeer_fulfilled self p None) w).
  assert (step w (PeerFulfilled rid p None) = Some w1) as Hs1.
  { unfold step. rewrite Hm, Hrid. reflexivity. }
  assert (mounted w1 = true) as Hm1 by (subst w1; clear Hs1; by handler).
  exists (exec (onConnectionStateChange q st) w1).
  split.
  { apply (run_two w w1); [done |]. unfold step. by rewrite Hm1. }
  clear Hs1 Hm1 Hrid Hm Hst. subst w1.
  unfold onConnectionStateChange. rewrite Hcond. handler.
  unfold countCalls.
  rewrite !timeoutDelays_app, !List.filter_app, !length_app. cbn.
  rewrite !app_nil_r. split_and!; try done. lia.
Qed.

Lemma drop_while_connecting_witness :
  mounted seekingWorld = true
  ∧ peerRequests seekingWorld !! 0 = Some (mkCallback None)
  ∧ connecting (state seekingWorld) = true
  ∧ ("failed" = "disconnected" ∨ "failed" = "failed" ∨ "failed" = "closed")
  ∧ ∃ w',
      run seekingWorld
        [PeerFulfilled 0 "peer-1" None;
         ConnectionStateChanged "peer-1" "failed"] = Some w'
      ∧ currentPeerId (state w') = None
      ∧ connecting (state w') = true
      ∧ connectionStatus (state w') = "Establishing connection..."
      ∧ peerRequests w' = delete 0 (peerRequests seekingWorld)
      ∧ timers w' = timers seekingWorld
      ∧ timeoutDelays (calls w') = timeoutDelays (calls seekingWorld)
      ∧ countCalls isConnectToRandomUser (calls w')
        = countCalls isConnectToRandomUser (calls seekingWorld).
Proof.
  assert (mounted seekingWorld = true) as Hm by (vm_compute; reflexivity).
  assert (peerRequests seekingWorld !! 0 = Some (mkCallback None)) as Hrid
    by (vm_compute; reflexivity).
  assert (connecting (state seekingWorld) = true) as Hco
    by (vm_compute; reflexivity).
  split; [exact Hm |]. split; [exact Hrid |]. split; [exact Hco |].
  split; [right; left; reflexivity |].
  exact (drop_while_connecting_leaves_overlay seekingWorld 0 (mkCallback None)
           "peer-1" "peer-1" "failed" Hm Hrid Hco
           (or_intror (or_introl eq_refl))).
Defined.

(** X16. After a skip away from a peer [p], every retry disconnects [p]
    again: the instance of [findNewPeer] the skip called is the one the
    timer runs, and it still holds [p].  A skip, a failed request and
    its retry make these calls, in this order. *)
Theorem retry_after_skip_disconnects_again
    (w : World) (p error : string) :
  mounted w = true →
  currentPeerId (state w) = Some p →
  p ≠ "" →
  ∃ w',
    run w [SkipClicked; PeerRejected (nextRequest w) error;
           TimerFired (nextTimer w)] = Some w'
    ∧ calls w' = calls w ++
        [Toast "Finding new partner" "Looking for someone new to chat with..."
           default_variant;
         DisconnectFromPeer p;
         ConnectToRandomUser;
         ConsoleError ["Error connecting to peer:"; error];
         SetTimeout (mkCallback (Some p)) 3000;
         DisconnectFromPeer p;
         ConnectToRandomUser]
    ∧ currentPeerId (state w') = None
    ∧ peerRequests w' !! S (nextRequest w) = Some (mkCallback (Some p)).
Proof.
  intros Hm Hpid Hp. apply truthy_nonempty in Hp.
  set (self := mkCallback (Some p)).
  set (w1 := exec handleSkip w).
  assert (step w SkipClicked = Some w1) as Hs1.
  { unfold step. by rewrite Hm. }
  assert (mounted w1 = true ∧ peerRequests w1 !! nextRequest w = Some self
          ∧ nextTimer w1 = nextTimer w ∧ nextRequest w1 = S (nextRequest w))
    as (Hm1 & Hrid1 & Hnt1 & Hnr1).
  { subst w1 self. clear Hs1. open_worlds. subst.
    run_handlers. rewrite Hp. run_handlers.
    split_and!; try done. apply lookup_insert_eq. }
  destruct (reject_then_retry w1 (nextRequest w) self error Hm1 Hrid1)
    as (Hs2 & Hs3 & Hc2 & Hc3 & _ & Hrid3 & _ & _ & Hpid3 & _).
  rewrite Hnt1 in Hs3. rewrite Hnr1 in Hrid3.
  eexists. split.
  { cbn [run]. rewrite Hs1. cbn [mbind option_bind]. rewrite Hs2.
    cbn [mbind option_bind]. rewrite Hs3. reflexivity. }
  rewrite Hnt1 in Hc3, Hpid3, Hrid3.
  split_and!; [| exact Hpid3 | exact Hrid3].
  rewrite Hc3, Hc2. subst self. cbn [closed_currentPeerId]. rewrite Hp.
  cbn [default from_option id].
  assert (calls w1 = calls w ++
            [Toast "Finding new partner"
               "Looking for someone new to chat with..." default_variant;
             DisconnectFromPeer p; ConnectToRandomUser]) as ->.
  { subst w1. clear -Hpid Hp. open_worlds. subst.
    run_handlers. rewrite Hp. run_handlers. by rewrite <- ?app_assoc. }
  by rewrite <- !app_assoc.
Qed.

Lemma retry_after_skip_witness :
  let w := default mountedWorld
             (run seekingWorld [PeerFulfilled 0 "peer-A" None]) in
  mounted w = true
  ∧ currentPeerId (state w) = Some "peer-A"
  ∧ "peer-A" ≠ ""
  ∧ ∃ w',
      run w [SkipClicked; PeerRejected (nextRequest w) "busy";
             TimerFired (nextTimer w)] = Some w'
      ∧ calls w' = calls w ++
          [Toast "Finding new partner"
             "Looking for someone new to chat with..." default_variant;
           DisconnectFromPeer "peer-A";
           ConnectToRandomUser;
           ConsoleError ["Error connecting to peer:"; "busy"];
           SetTimeout (mkCallback (Some "peer-A")) 3000;
           DisconnectFromPeer "peer-A";
           ConnectToRandomUser]
      ∧ currentPeerId (state w') = None
      ∧ peerRequests w' !! S (nextRequest w)
        = Some (mkCallback (Some "peer-A")).
Proof.
  intros w.
  assert (mounted w = true) as Hm by (vm_compute; reflexivity).
  assert (currentPeerId (state w) = Some "peer-A") as Hpid
    by (vm_compute; reflexivity).
  split; [exact Hm |]. split; [exact Hpid |]. split; [discriminate |].
  exact (retry_after_skip_disconnects_again w "peer-A" "busy" Hm Hpid
           ltac:(discriminate)).
Defined.

End StreamsAndPeers.

(** ** The message list and the listeners *)

Section ListAndListeners.

(** X17. No event edits, reorders or removes single messages: one event
    leaves the list as it is, appends one message at its end, or empties
    it. *)
Theorem messages_append_or_clear (w : World) (e : Event) (w' : World) :
  step w e = Some w' →
  messages (state w') = messages (state w)
  ∨ messages (state w') = []
  ∨ ∃ m, messages (state w') = messages (state w) ++ [m].
Proof.
  intros Hs.
  destruct (step_messages w e w' Hs) as [[H _] | [[H _] | (m & H & _)]];
    eauto.
Qed.

Lemma messages_append_or_clear_witness :
  step seekingWorld (MessageReceived "peer-1" (mkPayload "chat" "hi") 0)
  = Some (exec (onMessage "peer-1" (mkPayload "chat" "hi") 0) seekingWorld)
  ∧ (messages (state (exec (onMessage "peer-1" (mkPayload "chat" "hi") 0)
                        seekingWorld))
     = messages (state seekingWorld)
     ∨ messages (state (exec (onMessage "peer-1" (mkPayload "chat" "hi") 0)
                          seekingWorld)) = []
     ∨ ∃ m, messages (state (exec (onMessage "peer-1" (mkPayload "chat" "hi") 0)
                               seekingWorld))
            = messages (state seekingWorld) ++ [m]).
Proof.
  assert (step seekingWorld (MessageReceived "peer-1" (mkPayload "chat" "hi") 0)
          = Some (exec (onMessage "peer-1" (mkPayload "chat" "hi") 0)
                    seekingWorld)) as Hs by (vm_compute; reflexivity).
  split; [exact Hs |].
  exact (messages_append_or_clear seekingWorld _ _ Hs).
Defined.

Lemma step_unsubscribes (w : World) (e : Event) (w' : World) :
  List.filter isUnsubscribe (calls w) = [] →
  step w e = Some w' →
  List.filter isUnsubscribe (calls w')
  = if mounted w' then []
    else [UnsubscribeMessage; UnsubscribeStream; UnsubscribeConnectionState].
Proof.
  intros Hnone. step_cases.
  all: handler.
  all: rewrite ?List.filter_app, ?Hnone; cbn; try done.
  all: congruence.
Qed.

(** X18. The listeners are taken off exactly when the component goes: in
    every run, while the component is mounted no listener has been
    unsubscribed, and once it has unmounted (end chat or logout) each of
    the three has been unsubscribed exactly once. *)
Theorem listeners_released_on_unmount (w : World) :
  reachable w →
  List.filter isUnsubscribe (calls w)
  = if mounted w then []
    else [UnsubscribeMessage; UnsubscribeStream; UnsubscribeConnectionState].
Proof.
  revert w. apply reachable_invariant.
  - by vm_compute.
  - intros w e w' Hinv Hs.
    assert (mounted w = true) as Hm.
    { unfold step in Hs. by destruct (mounted w). }
    rewrite Hm in Hinv. by apply (step_unsubscribes w e).
Qed.

Lemma listeners_released_witness :
  let w := default mountedWorld
             (run mountedWorld
                [LocalStreamFulfilled (mkStream "local"); SkipClicked;
                 EndClicked]) in
  reachable w
  ∧ List.filter isUnsubscribe (calls w)
    = if mounted w then []
      else [UnsubscribeMessage; UnsubscribeStream; UnsubscribeConnectionState].
Proof.
  intros w.
  assert (reachable w) as Hreach.
  { exists [LocalStreamFulfilled (mkStream "local"); SkipClicked; EndClicked].
    vm_compute. reflexivity. }
  split; [exact Hreach |]. exact (listeners_released_on_unmount w Hreach).
Defined.

End ListAndListeners.
